(** * blobfs: a read-only file system over a blob store

    A shallow embedding of [blobfs.go].  The blob store ([gocloud.dev/blob])
    is an external collaborator: it is modelled as a record of oracles, and
    every call the code makes to it is recorded in a log, so that statements
    such as "one ranged read" or "only the first listed result" can be
    stated.  Methods with a pointer receiver return the receiver after the
    call next to their Go results; a byte slice written by a read is returned
    as well. *)

From Stdlib Require Import ZArith List Bool Lia.
From Stdlib Require Import Ascii String.
From Stdlib Require Import Strings.Byte.
Import ListNotations.

Local Open Scope string_scope.
Local Open Scope list_scope.
Local Open Scope Z_scope.

(** ** Go integers *)

(** [int64], and [int] on the 64-bit platforms Go supports: two's complement
    with silent wrap-around. *)
Definition int64_ok (z : Z) : Prop := - 2 ^ 63 <= z < 2 ^ 63.

Definition wrap64 (z : Z) : Z := (z + 2 ^ 63) mod 2 ^ 64 - 2 ^ 63.

Definition add64 (a b : Z) : Z := wrap64 (a + b).

(** [len] of a slice. *)
Definition len {A : Type} (l : list A) : Z := Z.of_nat (List.length l).

(** ** Errors *)

(** The values of Go's [error] interface that the package meets: the
    sentinels [io.EOF], [fs.ErrNotExist] and [fs.ErrInvalid], the values built
    with [errors.New], [*fs.PathError], and whatever the blob store reports
    (with its [gcerrors] code: 2 is NotFound, 8 is PermissionDenied).
    A nil error is [None] in [option error]. *)
Inductive error : Type :=
| io_EOF
| fs_ErrNotExist
| fs_ErrInvalid
| errors_New (text : string)
| fs_PathError (Op Path : string) (Err : error)
| backend_error (code : nat) (text : string).

(** [err == io.EOF] *)
Definition is_EOF (e : error) : bool :=
  match e with io_EOF => true | _ => false end.

(** A Go result pair [(T, error)] of which exactly one side is meaningful. *)
Inductive result (A : Type) : Type :=
| Ok (a : A)
| Err (e : error).
Arguments Ok {A} a.
Arguments Err {A} e.

(** A computation that may end in a run-time panic (index out of range,
    [make] with a negative length). *)
Inductive outcome (A : Type) : Type :=
| Done (a : A)
| Panic.
Arguments Done {A} a.
Arguments Panic {A}.

Definition opOpen : string := "open".
Definition opRead : string := "read".
Definition opSeek : string := "seek".

(** ** The blob store *)

(** [time.Time], kept abstract as a number; [0] is the zero time. *)
Definition Time : Type := Z.

(** [blob.ListObject] *)
Record ListObject : Type := mkListObject {
  Key : string;
  ModTime : Time;
  Size : Z;
  MD5 : list byte;
  IsDir : bool
}.

(** The fields of [blob.Attributes] the package reads. *)
Record Attributes : Type := mkAttributes {
  attr_ModTime : Time;
  attr_Size : Z;
  attr_MD5 : list byte
}.

(** A [blob.Reader] as the package uses it: one [Read], then [Close].
    [rd_bytes n] is what the store delivers to a buffer of [n] bytes, with the
    error of that [Read]. *)
Record Reader : Type := mkReader {
  rd_bytes : Z -> list byte * option error;
  rd_close : option error
}.

(** A [blob.ListIterator]: the objects still to come and the error that
    [Next] reports after them ([io.EOF] when the listing ends cleanly). *)
Record ListIterator : Type := mkListIterator {
  pending : list ListObject;
  final : error
}.

(** [blob.Bucket] *)
Record Bucket : Type := mkBucket {
  bk_Attributes : string -> result Attributes;
  bk_List : string -> string -> ListIterator;
  bk_NewRangeReader : string -> Z -> Z -> result Reader
}.

(** The calls made to the store. *)
Inductive event : Type :=
| EvAttributes (key : string)
| EvList (delimiter prefix : string)
| EvNext
| EvNewRangeReader (key : string) (offset size : Z)
| EvRead (size : Z)
| EvClose.

(** ** Computations that log their calls to the store *)

Definition W (A : Type) : Type := (A * list event)%type.

Definition ret {A : Type} (a : A) : W A := (a, []).

Definition bind {A B : Type} (m : W A) (k : A -> W B) : W B :=
  let (a, l1) := m in
  let (b, l2) := k a in
  (b, l1 ++ l2).

Definition value {A : Type} (m : W A) : A := fst m.
Definition calls {A : Type} (m : W A) : list event := snd m.

Notation "x <- m ;; k" := (bind m (fun x => k))
  (at level 61, m at next level, right associativity).
Notation "' p <- m ;; k" := (bind m (fun x => match x with p => k end))
  (at level 61, p pattern, m at next level, right associativity).

Definition Bucket_Attributes (bk : Bucket) (key : string)
  : W (result Attributes) :=
  (bk_Attributes bk key, [EvAttributes key]).

Definition Bucket_List (bk : Bucket) (delimiter prefix : string)
  : W ListIterator :=
  (bk_List bk delimiter prefix, [EvList delimiter prefix]).

Definition Bucket_NewRangeReader (bk : Bucket) (key : string)
  (offset size : Z) : W (result Reader) :=
  (bk_NewRangeReader bk key offset size,
   [EvNewRangeReader key offset size]).

(** [iter.Next(ctx)]: the next object and the iterator after it, or the
    error. *)
Definition ListIterator_Next (it : ListIterator)
  : W (result ListObject * ListIterator) :=
  match pending it with
  | obj :: rest => ((Ok obj, mkListIterator rest (final it)), [EvNext])
  | [] => ((Err (final it), it), [EvNext])
  end.

(** [r.Read(b)]: by the [io.Reader] contract at most [len(b)] bytes are
    stored, at the front of [b]; the count is the number stored. *)
Definition Reader_Read (r : Reader) (b : list byte)
  : W (list byte * Z * option error) :=
  let (data, err) := rd_bytes r (len b) in
  let got := firstn (List.length b) data in
  ((got ++ skipn (List.length got) b, len got, err), [EvRead (len b)]).

Definition Reader_Close (r : Reader) : W (option error) :=
  (rd_close r, [EvClose]).

(** [runtime.maxAlloc], the largest allocation the Go runtime accepts, on
    the 64-bit platforms with 48-bit heap addresses (linux/amd64 and
    arm64 among them). *)
Definition maxAlloc : Z := 2 ^ 48.

(** [make([]byte, n)]: the runtime panics ([makeslice: len out of range])
    for a negative [n] and for an [n] above [maxAlloc].  An allocation
    within the limit is taken to succeed: running out of memory ends the
    process and is not a panic. *)
Definition make_bytes (n : Z) : outcome (list byte) :=
  if (n <? 0) || (maxAlloc <? n) then Panic
  else Done (repeat x00 (Z.to_nat n)).

(** ** Strings *)

(** [strings.HasSuffix] and [strings.TrimSuffix] *)
Definition HasSuffix (s suffix : string) : bool :=
  (String.length suffix <=? String.length s)%nat &&
  String.eqb
    (substring (String.length s - String.length suffix)
       (String.length suffix) s)
    suffix.

Definition TrimSuffix (s suffix : string) : string :=
  if HasSuffix s suffix
  then substring 0 (String.length s - String.length suffix) s
  else s.

(** [strings.Split(s, "/")]: the segments between separators; [cur] is the
    segment being read. *)
Fixpoint Split_from (cur s : string) : list string :=
  match s with
  | EmptyString => [cur]
  | String c r =>
      if Ascii.eqb c "/" then cur :: Split_from "" r
      else Split_from (cur ++ String c "")%string r
  end.

Definition Split_slash (s : string) : list string := Split_from "" s.

(** [unicode/utf8.ValidString], from the Go standard library: the accepted
    first bytes, the range of the second byte that each of them allows, and
    continuation bytes [0x80..0xBF] after that. *)
Definition byte_in (lo hi : N) (c : ascii) : bool :=
  ((lo <=? N_of_ascii c) && (N_of_ascii c <=? hi))%N.

Fixpoint utf8_ValidString (s : string) : bool :=
  match s with
  | EmptyString => true
  | String c r =>
      if byte_in 0x00 0x7F c then utf8_ValidString r
      else
        let two (lo hi : N) :=
          match r with
          | String c1 r1 => byte_in lo hi c1 && utf8_ValidString r1
          | _ => false
          end in
        let three (lo hi : N) :=
          match r with
          | String c1 (String c2 r2) =>
              byte_in lo hi c1 && byte_in 0x80 0xBF c2 && utf8_ValidString r2
          | _ => false
          end in
        let four (lo hi : N) :=
          match r with
          | String c1 (String c2 (String c3 r3)) =>
              byte_in lo hi c1 && byte_in 0x80 0xBF c2 &&
              byte_in 0x80 0xBF c3 && utf8_ValidString r3
          | _ => false
          end in
        if byte_in 0xC2 0xDF c then two 0x80%N 0xBF%N
        else if byte_in 0xE0 0xE0 c then three 0xA0%N 0xBF%N
        else if byte_in 0xE1 0xEC c then three 0x80%N 0xBF%N
        else if byte_in 0xED 0xED c then three 0x80%N 0x9F%N
        else if byte_in 0xEE 0xEF c then three 0x80%N 0xBF%N
        else if byte_in 0xF0 0xF0 c then four 0x90%N 0xBF%N
        else if byte_in 0xF1 0xF3 c then four 0x80%N 0xBF%N
        else if byte_in 0xF4 0xF4 c then four 0x80%N 0x8F%N
        else false
  end.

(** An element of a path: not empty, not [.], not [..]. *)
Definition elem_ok (elem : string) : bool :=
  negb (String.eqb elem "" || String.eqb elem "." || String.eqb elem "..").

(** The loop of [fs.ValidPath]: [cur] is the element read so far, [s] the
    rest of the name; every element must pass [elem_ok], the last one
    included. *)
Fixpoint valid_elems (cur s : string) : bool :=
  match s with
  | EmptyString => elem_ok cur
  | String c r =>
      if Ascii.eqb c "/" then elem_ok cur && valid_elems "" r
      else valid_elems (cur ++ String c "")%string r
  end.

(** Modelled from the spec: [io/fs.ValidPath] belongs to the Go standard
    library and is not part of the package.  A valid path is relative and
    slash-separated, has no empty, [.] or [..] element, hence no leading or
    trailing slash; the only exception is the root marker [.].  The library
    also asks for valid UTF-8, which is kept here. *)
Definition ValidPath (name : string) : bool :=
  if negb (utf8_ValidString name) then false
  else if String.eqb name "." then true
  else valid_elems "" name.

(** ** File modes *)

(** [fs.FileMode] of the Go standard library: the type bits the package
    meets and the methods [IsDir], [IsRegular], [Perm] and [Type]. *)
Module FileMode.

Definition ModeDir : Z := Z.shiftl 1 31.
Definition ModeSymlink : Z := Z.shiftl 1 27.
Definition ModeDevice : Z := Z.shiftl 1 26.
Definition ModeNamedPipe : Z := Z.shiftl 1 25.
Definition ModeSocket : Z := Z.shiftl 1 24.
Definition ModeCharDevice : Z := Z.shiftl 1 21.
Definition ModeIrregular : Z := Z.shiftl 1 19.

Definition ModeType : Z :=
  Z.lor ModeDir
    (Z.lor ModeSymlink
       (Z.lor ModeNamedPipe
          (Z.lor ModeSocket
             (Z.lor ModeDevice (Z.lor ModeCharDevice ModeIrregular))))).

(** [0777] *)
Definition ModePerm : Z := 7 * 8 ^ 2 + 7 * 8 + 7.

Definition IsDir (m : Z) : bool := negb (Z.land m ModeDir =? 0).
Definition IsRegular (m : Z) : bool := Z.land m ModeType =? 0.
Definition Perm (m : Z) : Z := Z.land m ModePerm.
(** [Type] *)
Definition Type' (m : Z) : Z := Z.land m ModeType.

End FileMode.

(** ** Entries *)

Module fileListEntry.

Record t : Type := mk { obj : ListObject }.

Definition Size (e : t) : Z := Size (obj e).
Definition ModTime (e : t) : Time := ModTime (obj e).
Definition IsDir (e : t) : bool := IsDir (obj e).
Definition Path (e : t) : string := Key (obj e).

(** [name[len(name)-1]] *)
Definition last_byte (s : string) : option ascii :=
  String.get (String.length s - 1) s.

Definition Name (e : t) : string :=
  if String.eqb (Key (obj e)) "" then "."
  else
    let name := Key (obj e) in
    let name :=
      match last_byte name with
      | Some c =>
          if Ascii.eqb c "/" then substring 0 (String.length name - 1) name
          else name
      | None => name
      end in
    last (Split_slash name) "".

(** [fs.ModeDir | 0555] for a directory, [0444] otherwise. *)
Definition Mode (e : t) : Z :=
  if IsDir e then Z.lor FileMode.ModeDir (5 * 8 ^ 2 + 5 * 8 + 5)
  else 4 * 8 ^ 2 + 4 * 8 + 4.

(** [Type] *)
Definition Type' (e : t) : Z := FileMode.Type' (Mode e).

Definition Info (e : t) : t * option error := (e, None).

End fileListEntry.

(** ** Open files *)

Module openFile.

Record t : Type := mk {
  self : fileListEntry.t;
  bucket : Bucket;
  offset : Z
}.

Definition set_offset (f : t) (o : Z) : t := mk (self f) (bucket f) o.

Definition newOpenFile (entry : fileListEntry.t) (bk : Bucket) : result t :=
  Ok (mk entry bk 0).

(** [Read]: the handle and the buffer after the call, then [(n, err)]. *)
Definition Read (f : t) (b : list byte)
  : W (t * list byte * (Z * option error)) :=
  if len b =? 0 then ret (f, b, (0, None))
  else if offset f >=? fileListEntry.Size (self f)
  then ret (f, b, (0, Some io_EOF))
  else
    r <- Bucket_NewRangeReader (bucket f) (fileListEntry.Path (self f))
           (offset f) (len b) ;;
    match r with
    | Err err =>
        ret (f, b,
             (0, Some (fs_PathError opRead (fileListEntry.Path (self f)) err)))
    | Ok r =>
        '(b', size, err) <- Reader_Read r b ;;
        let f' := set_offset f (add64 (offset f) size) in
        match err with
        | Some e => ret (f', b', (size, Some e))
        | None => cerr <- Reader_Close r ;; ret (f', b', (size, cerr))
        end
    end.

(** [ReadAt]: same shape as [Read]. *)
Definition ReadAt (f : t) (b : list byte) (off : Z)
  : W (t * list byte * (Z * option error)) :=
  if len b =? 0 then ret (f, b, (0, None))
  else if off >=? fileListEntry.Size (self f)
  then ret (f, b, (0, Some io_EOF))
  else
    r <- Bucket_NewRangeReader (bucket f) (fileListEntry.Path (self f))
           off (len b) ;;
    match r with
    | Err err =>
        ret (f, b,
             (0, Some (fs_PathError opRead (fileListEntry.Path (self f)) err)))
    | Ok r =>
        '(b', size, err) <- Reader_Read r b ;;
        if add64 off size =? fileListEntry.Size (self f)
        then ret (f, b', (size, Some io_EOF))
        else
          match err with
          | Some e => ret (f, b', (size, Some e))
          | None => cerr <- Reader_Close r ;; ret (f, b', (size, cerr))
          end
    end.

Definition Stat (f : t) : fileListEntry.t * option error := (self f, None).
Definition Close (f : t) : option error := None.

Definition SeekStart : Z := 0.
Definition SeekCurrent : Z := 1.
Definition SeekEnd : Z := 2.

(** [Seek]: the handle after the call, then [(position, err)]. *)
Definition Seek (f : t) (off : Z) (whence : Z) : t * (Z * option error) :=
  let invalid :=
    (f, (0, Some (fs_PathError opSeek (fileListEntry.Path (self f))
                    fs_ErrInvalid))) in
  let after (off : Z) :=
    if (off <? 0) || (off >? fileListEntry.Size (self f))
    then invalid
    else (set_offset f off, (off, None)) in
  if whence =? SeekStart then after off
  else if whence =? SeekCurrent then after (add64 off (offset f))
  else if whence =? SeekEnd
  then after (add64 off (fileListEntry.Size (self f)))
  else invalid.

End openFile.

(** ** Open directories *)

Module openDir.

Record t : Type := mk {
  self : fileListEntry.t;
  entries : list fileListEntry.t;
  offset : Z
}.

Definition set_offset (d : t) (o : Z) : t := mk (self d) (entries d) o.

(** The loop of [newOpenDir]: [Next] until [io.EOF], appending each
    object; any other error ends the construction.  The recursion follows
    the objects the iterator still holds; [collect_step] below shows that
    it is the loop written with [ListIterator_Next]. *)
Fixpoint collect (pend : list ListObject) (fin : error)
  (files : list fileListEntry.t) {struct pend}
  : W (result (list fileListEntry.t)) :=
  match pend with
  | [] =>
      _ <- ListIterator_Next (mkListIterator [] fin) ;;
      if is_EOF fin then ret (Ok files) else ret (Err fin)
  | obj :: rest =>
      _ <- ListIterator_Next (mkListIterator (obj :: rest) fin) ;;
      collect rest fin (files ++ [fileListEntry.mk obj])
  end.

Definition newOpenDir (entry : fileListEntry.t) (bk : Bucket)
  : W (result t) :=
  iter <- Bucket_List bk "/" (fileListEntry.Path entry) ;;
  r <- collect (pending iter) (final iter) [] ;;
  match r with
  | Err err => ret (Err err)
  | Ok files => ret (Ok (mk entry files 0))
  end.

(** [s[i]]; out of range panics. *)
Definition index {A : Type} (s : list A) (i : Z) : outcome A :=
  if i <? 0 then Panic
  else match nth_error s (Z.to_nat i) with
       | Some x => Done x
       | None => Panic
       end.

(** [for i := range entries { entries[i] = d.entries[d.offset+i] }] over
    the indices [idx]. *)
Fixpoint copy_range {A : Type} (src : list A) (off : Z) (idx : list nat)
  : outcome (list A) :=
  match idx with
  | [] => Done []
  | i :: idx' =>
      match index src (add64 off (Z.of_nat i)) with
      | Panic => Panic
      | Done x =>
          match copy_range src off idx' with
          | Panic => Panic
          | Done xs => Done (x :: xs)
          end
      end
  end.

(** [ReadDir]: the handle after the call, then [(entries, err)]; a nil
    slice is [None]. *)
Definition ReadDir (d : t) (n : Z)
  : outcome (t * (option (list fileListEntry.t) * option error)) :=
  let count := wrap64 (len (entries d) - offset d) in
  let count := if (n >? 0) && (count >? n) then n else count in
  if count =? 0 then
    if n <=? 0 then Done (d, (None, None))
    else Done (d, (None, Some io_EOF))
  else if count <? 0 then Panic
  else
    match copy_range (entries d) (offset d) (seq 0 (Z.to_nat count)) with
    | Panic => Panic
    | Done es => Done (set_offset d (add64 (offset d) count), (Some es, None))
    end.

Definition Read (d : t) (b : list byte) : Z * option error :=
  (0, Some (fs_PathError opRead (fileListEntry.Path (self d))
              (errors_New "is a directory"))).

Definition Stat (d : t) : fileListEntry.t * option error := (self d, None).
Definition Close (d : t) : option error := None.

End openDir.

(** ** The file system *)

(** [fs.File] as [Open] returns it: an [*openFile] or an [*openDir]. *)
Inductive File : Type :=
| File_openFile (f : openFile.t)
| File_openDir (d : openDir.t).

(** [err != io.EOF] for a possibly nil [err]. *)
Definition not_EOF (err : option error) : bool :=
  match err with
  | Some e => negb (is_EOF e)
  | None => true
  end.

Module FS.

Record t : Type := mk { bucket : Bucket }.

Definition New (bk : Bucket) : t := mk bk.

Definition rootFile : fileListEntry.t :=
  fileListEntry.mk (mkListObject "" 0 0 [] true).

Definition searchDir (fsys : t) (name : string)
  : W (result fileListEntry.t) :=
  let name := TrimSuffix name "/" in
  iter <- Bucket_List (bucket fsys) "/" name ;;
  '(r, _) <- ListIterator_Next iter ;;
  match r with
  | Err err =>
      if is_EOF err then ret (Err fs_ErrNotExist) else ret (Err err)
  | Ok obj =>
      if String.eqb (Key obj) (name ++ "/")%string
      then ret (Ok (fileListEntry.mk obj))
      else ret (Err fs_ErrNotExist)
  end.

Definition lookup (fsys : t) (name : string) : W (result fileListEntry.t) :=
  if negb (ValidPath name) then ret (Err fs_ErrInvalid)
  else if String.eqb name "." then ret (Ok rootFile)
  else
    r <- Bucket_Attributes (bucket fsys) name ;;
    match r with
    | Ok attr =>
        ret (Ok (fileListEntry.mk
                   (mkListObject name (attr_ModTime attr) (attr_Size attr)
                      (attr_MD5 attr) false)))
    | Err _ => searchDir fsys name
    end.

Definition Open (fsys : t) (name : string) : W (result File) :=
  r <- lookup fsys name ;;
  match r with
  | Err err => ret (Err (fs_PathError opOpen name err))
  | Ok e =>
      if fileListEntry.IsDir e then
        r <- openDir.newOpenDir e (bucket fsys) ;;
        match r with
        | Err err => ret (Err (fs_PathError opOpen name err))
        | Ok dir => ret (Ok (File_openDir dir))
        end
      else
        match openFile.newOpenFile e (bucket fsys) with
        | Err err => ret (Err (fs_PathError opOpen name err))
        | Ok file => ret (Ok (File_openFile file))
        end
  end.

(** [ReadFile]: [(bytes, err)], a nil slice being [None]. *)
Definition ReadFile (fsys : t) (name : string)
  : W (outcome (option (list byte) * option error)) :=
  r <- Open fsys name ;;
  match r with
  | Err err => ret (Done (None, Some err))
  | Ok (File_openDir _) =>
      ret (Done (None, Some (fs_PathError opRead name
                               (errors_New "is a directory"))))
  | Ok (File_openFile ofile) =>
      match make_bytes (fileListEntry.Size (openFile.self ofile)) with
      | Panic => ret Panic
      | Done b =>
          '(_, b, (_, err)) <- openFile.ReadAt ofile b 0 ;;
          if not_EOF err then ret (Done (None, err))
          else ret (Done (Some b, None))
      end
  end.

(** [ReadDir]: [(entries, err)]. *)
Definition ReadDir (fsys : t) (name : string)
  : W (outcome (option (list fileListEntry.t) * option error)) :=
  r <- Open fsys name ;;
  match r with
  | Err err => ret (Done (None, Some err))
  | Ok (File_openFile _) =>
      ret (Done (None, Some (fs_PathError opRead name
                               (errors_New "not a directory"))))
  | Ok (File_openDir dir) =>
      match openDir.ReadDir dir (-1) with
      | Panic => ret Panic
      | Done (_, res) => ret (Done res)
      end
  end.

End FS.

(** ** A small store to run the definitions on

    Objects [foo.txt] (5 bytes), [empty.txt] (0 bytes) and [dir1/hoge.txt];
    [denied.txt] cannot be inspected (permission failure) and is not
    listed; listing under [flaky] breaks with a network error. *)

Definition bytes_of_string (s : string) : list byte :=
  List.map byte_of_ascii (list_ascii_of_string s).

Definition foo_bytes : list byte := bytes_of_string "hello".

Definition err_not_found : error := backend_error 2 "blob: key not found".
Definition err_denied : error := backend_error 8 "blob: permission denied".
Definition err_network : error := backend_error 1 "blob: connection reset".

Definition demo_Attributes (key : string) : result Attributes :=
  if String.eqb key "foo.txt" then Ok (mkAttributes 1 5 [])
  else if String.eqb key "empty.txt" then Ok (mkAttributes 2 0 [])
  else if String.eqb key "dir1/hoge.txt" then Ok (mkAttributes 3 4 [])
  else if String.eqb key "denied.txt" then Err err_denied
  else Err err_not_found.

Definition demo_List (delimiter prefix : string) : ListIterator :=
  if String.eqb prefix "" then
    mkListIterator
      [mkListObject "dir1/" 0 0 [] true;
       mkListObject "empty.txt" 2 0 [] false;
       mkListObject "foo.txt" 1 5 [] false] io_EOF
  else if String.eqb prefix "dir1" then
    mkListIterator [mkListObject "dir1/" 0 0 [] true] io_EOF
  else if String.eqb prefix "dir1/" then
    mkListIterator [mkListObject "dir1/hoge.txt" 3 4 [] false] io_EOF
  else if String.eqb prefix "foo.txt" then
    mkListIterator [mkListObject "foo.txt" 1 5 [] false] io_EOF
  else if String.eqb prefix "flaky" then mkListIterator [] err_network
  else mkListIterator [] io_EOF.

(** A reader over [data] from [off]: up to [n] bytes, [io.EOF] once nothing
    is left. *)
Definition demo_reader (data : list byte) (off size : Z) : Reader :=
  mkReader
    (fun n =>
       let chunk := firstn (Z.to_nat (Z.min n size))
                      (skipn (Z.to_nat off) data) in
       (chunk, match chunk with [] => Some io_EOF | _ => None end))
    None.

Definition demo_NewRangeReader (key : string) (off size : Z)
  : result Reader :=
  if String.eqb key "foo.txt" then
    if off <? 0 then Err (backend_error 4 "blob: negative offset")
    else Ok (demo_reader foo_bytes off size)
  else Err err_not_found.

Definition demo_bucket : Bucket :=
  mkBucket demo_Attributes demo_List demo_NewRangeReader.

Definition demo_fs : FS.t := FS.New demo_bucket.

Definition foo_entry : fileListEntry.t :=
  fileListEntry.mk (mkListObject "foo.txt" 1 5 [] false).

Definition foo_file : openFile.t := openFile.mk foo_entry demo_bucket 0.

Definition dir_entry (key : string) : fileListEntry.t :=
  fileListEntry.mk (mkListObject key 0 0 [] false).

(** An open directory with two children, none returned yet. *)
Definition demo_dir : openDir.t :=
  openDir.mk FS.rootFile [dir_entry "a"; dir_entry "b"] 0.

(** ** Positions of a seek *)

(** The position a [Seek] aims at, in unbounded integers: from the start,
    from the cursor or from the end; no position for any other [whence]. *)
Definition seek_position (f : openFile.t) (off whence : Z) : option Z :=
  if whence =? openFile.SeekStart then Some off
  else if whence =? openFile.SeekCurrent then Some (off + openFile.offset f)
  else if whence =? openFile.SeekEnd
  then Some (off + fileListEntry.Size (openFile.self f))
  else None.

Definition seek_invalid (f : openFile.t) : openFile.t * (Z * option error) :=
  (f, (0, Some (fs_PathError opSeek (fileListEntry.Path (openFile.self f))
                  fs_ErrInvalid))).

(** ** Outcomes of path resolution *)

(** What the directory probe does with the listing it is given. *)
Definition probe_result (name : string) (it : ListIterator)
  : result fileListEntry.t :=
  match pending it with
  | obj :: _ =>
      if String.eqb (Key obj) (name ++ "/")
      then Ok (fileListEntry.mk obj)
      else Err fs_ErrNotExist
  | [] => if is_EOF (final it) then Err fs_ErrNotExist else Err (final it)
  end.

(** The three ways a resolved entry gets its key: the root has the empty
    key; a file has the path; a directory found by the probe has the listed
    key, which is the path followed by the separator, and [Name] drops that
    separator again. *)
Definition key_shape (fsys : FS.t) (name : string) (e : fileListEntry.t)
  : Prop :=
  (name = "." /\ e = FS.rootFile /\ fileListEntry.Path e = ""
   /\ HasSuffix (fileListEntry.Path e) "/" = false)
  \/
  (name <> "." /\ fileListEntry.IsDir e = false
   /\ (exists attr, bk_Attributes (FS.bucket fsys) name = Ok attr)
   /\ fileListEntry.Path e = name
   /\ HasSuffix (fileListEntry.Path e) "/" = false)
  \/
  (name <> "."
   /\ (exists err, bk_Attributes (FS.bucket fsys) name = Err err)
   /\ fileListEntry.Path e = (name ++ "/")%string
   /\ HasSuffix (fileListEntry.Path e) "/" = true
   /\ fileListEntry.Name e = last (Split_slash name) "").

(** ** Cursors of directory handles *)

(** The cursor lies within the children, whose number fits an [int]. *)
Definition dir_cursor_ok (d : openDir.t) : Prop :=
  0 <= openDir.offset d <= len (openDir.entries d)
  /\ len (openDir.entries d) < 2 ^ 63.

(** A store whose listing under [dir1/] breaks after the first object. *)
Definition broken_List (delimiter prefix : string) : ListIterator :=
  if String.eqb prefix "dir1/" then
    mkListIterator [mkListObject "dir1/hoge.txt" 3 4 [] false] err_network
  else demo_List delimiter prefix.

Definition broken_bucket : Bucket :=
  mkBucket demo_Attributes broken_List demo_NewRangeReader.

Definition broken_fs : FS.t := FS.New broken_bucket.

(** A store that declares the largest [int64] as the size of [foo.txt]. *)
Definition huge_Attributes (key : string) : result Attributes :=
  if String.eqb key "foo.txt" then Ok (mkAttributes 1 (2 ^ 63 - 1) [])
  else Err err_not_found.

Definition huge_bucket : Bucket :=
  mkBucket huge_Attributes demo_List demo_NewRangeReader.

Definition huge_fs : FS.t := FS.New huge_bucket.

(** A store that declares 5 bytes for [foo.txt] and delivers 2 of them in
    the first read, without an error. *)
Definition short_NewRangeReader (key : string) (off size : Z)
  : result Reader :=
  if String.eqb key "foo.txt" then
    Ok (mkReader (fun _ => (bytes_of_string "he", None)) None)
  else Err err_not_found.

Definition short_bucket : Bucket :=
  mkBucket demo_Attributes demo_List short_NewRangeReader.

Definition short_fs : FS.t := FS.New short_bucket.

(** ** Callers

    Loops a caller writes over a handle, and what it means for the store to
    hold an object. *)

(** Sequential reading with buffers of [m] bytes: [Read] until an error
    ([io.EOF] included) comes back, at most [fuel] times.  The bytes
    gathered, the handle, and the error that ended the loop ([None] when
    the fuel ran out first). *)
Fixpoint read_to_end (fuel : nat) (f : openFile.t) (m : nat)
  : list byte * openFile.t * option error :=
  match fuel with
  | O => ([], f, None)
  | S fuel' =>
      let '(f1, b1, (n, err)) := value (openFile.Read f (repeat x00 m)) in
      let got := firstn (Z.to_nat n) b1 in
      match err with
      | Some e => (got, f1, Some e)
      | None =>
          let '(more, f2, e) := read_to_end fuel' f1 m in
          (got ++ more, f2, e)
      end
  end.

(** Paging through a directory [n] entries at a time: [ReadDir(n)] until an
    error ([io.EOF] included) comes back, at most [fuel] times; [None] on a
    panic. *)
Fixpoint read_pages (fuel : nat) (d : openDir.t) (n : Z)
  : option (list fileListEntry.t * openDir.t * option error) :=
  match fuel with
  | O => Some ([], d, None)
  | S fuel' =>
      match openDir.ReadDir d n with
      | Panic => None
      | Done (d1, (es, err)) =>
          let page := match es with Some l => l | None => [] end in
          match err with
          | Some e => Some (page, d1, Some e)
          | None =>
              match read_pages fuel' d1 n with
              | None => None
              | Some (more, d2, e) => Some (page ++ more, d2, e)
              end
          end
      end
  end.

(** The store holds [data] under [key]: a ranged reader at any offset
    inside the object delivers, in its one [Read], as many of the bytes from
    that offset as fit the buffer, without an error, and closes cleanly. *)
Definition serves (bk : Bucket) (key : string) (data : list byte) : Prop :=
  forall off n : Z,
    0 <= off < len data -> 0 < n ->
    exists r : Reader,
      bk_NewRangeReader bk key off n = Ok r
      /\ rd_bytes r n =
           (firstn (Z.to_nat n) (skipn (Z.to_nat off) data), None)
      /\ rd_close r = None.

(** The number of entries the next [ReadDir(n)] returns when [k] are
    left. *)
Definition page_size (n k : Z) : Z := if (n >? 0) && (k >? n) then n else k.

(** No byte of [s] is the path separator. *)
Fixpoint no_slash (s : string) : bool :=
  match s with
  | EmptyString => true
  | String c r => negb (Ascii.eqb c "/") && no_slash r
  end.

(** * Properties *)

(** Closed arithmetic and boolean side conditions, by evaluation. *)
Ltac evaluate :=
  vm_compute; repeat split; first [reflexivity | discriminate].

(** ** Integers and the log *)

Lemma wrap64_id (z : Z) : int64_ok z -> wrap64 z = z.
Proof.
  unfold int64_ok, wrap64. intros H.
  rewrite Z.mod_small; lia.
Qed.

Lemma wrap64_ok (z : Z) : int64_ok (wrap64 z).
Proof.
  unfold int64_ok, wrap64.
  pose proof (Z.mod_pos_bound (z + 2 ^ 63) (2 ^ 64)). lia.
Qed.

(** Past the top of the range the sum wraps to a negative number. *)
Lemma wrap64_over (z : Z) : 2 ^ 63 <= z < 2 ^ 64 -> wrap64 z = z - 2 ^ 64.
Proof.
  unfold wrap64. intros H.
  replace (z + 2 ^ 63) with ((z - 2 ^ 63) + 1 * 2 ^ 64) by lia.
  rewrite Z.mod_add by lia. rewrite Z.mod_small; lia.
Qed.

Lemma wrap64_under (z : Z) : - 2 ^ 64 <= z < - 2 ^ 63 -> wrap64 z = z + 2 ^ 64.
Proof.
  unfold wrap64. intros H.
  replace (z + 2 ^ 63) with ((z + 2 ^ 63 + 2 ^ 64) + (-1) * 2 ^ 64) by lia.
  rewrite Z.mod_add by lia. rewrite Z.mod_small; lia.
Qed.

Lemma len_nonneg {A : Type} (l : list A) : 0 <= len l.
Proof. unfold len. lia. Qed.

Lemma len_nil_iff {A : Type} (l : list A) : len l = 0 <-> l = [].
Proof.
  unfold len. destruct l; simpl; split; intros H; try reflexivity; try lia.
  discriminate H.
Qed.

Lemma len_eqb_nonempty {A : Type} (l : list A) : l <> [] -> (len l =? 0) = false.
Proof.
  intros H. apply Z.eqb_neq. intros E. apply H. now apply len_nil_iff.
Qed.

(** What [Reader_Read] stores and counts. *)
Lemma Reader_Read_count (r : Reader) (b b' : list byte) (n : Z)
  (err : option error) :
  value (Reader_Read r b) = (b', n, err) -> 0 <= n <= len b /\ len b' = len b.
Proof.
  unfold Reader_Read, value. destruct (rd_bytes r (len b)) as [data e].
  simpl. intros H. inversion H; subst; clear H. unfold len.
  pose proof (length_firstn (List.length b) data) as Hf.
  rewrite length_app, length_skipn. lia.
Qed.

Lemma Reader_Read_calls (r : Reader) (b : list byte) :
  calls (Reader_Read r b) = [EvRead (len b)].
Proof.
  unfold Reader_Read, calls. now destruct (rd_bytes r (len b)).
Qed.

Lemma Reader_Read_eta (r : Reader) (b : list byte) :
  Reader_Read r b = (value (Reader_Read r b), [EvRead (len b)]).
Proof.
  unfold Reader_Read, value. now destruct (rd_bytes r (len b)).
Qed.

(** ** Open files *)

Section OpenFile.

Variable f : openFile.t.

(** [ReadAt] hands the handle back as it got it. *)
Lemma ReadAt_handle (b : list byte) (off : Z) :
  fst (fst (value (openFile.ReadAt f b off))) = f.
Proof.
  unfold openFile.ReadAt.
  destruct (len b =? 0); [reflexivity|].
  destruct (off >=? _); [reflexivity|].
  unfold bind, Bucket_NewRangeReader.
  destruct (bk_NewRangeReader _ _ _ _) as [r|e]; [|reflexivity].
  rewrite Reader_Read_eta.
  destruct (value (Reader_Read r b)) as [[b' n] err]. simpl.
  destruct (add64 off n =? _); [reflexivity|].
  destruct err; reflexivity.
Qed.

End OpenFile.

(** C1. For an open file on an entry of size S and a non-empty buffer,
    [ReadAt] at an offset at or past S gives 0 bytes and [io.EOF] without
    touching the store; and when the ranged read delivers n bytes with
    offset + n = S, [ReadAt] gives those n bytes together with [io.EOF],
    whatever the store's own [Read] reported, success included. *)
Theorem ReadAt_end_of_stream (f : openFile.t) (b : list byte) (off : Z) :
  b <> [] ->
  int64_ok (fileListEntry.Size (openFile.self f)) ->
  (fileListEntry.Size (openFile.self f) <= off ->
   openFile.ReadAt f b off = ((f, b, (0, Some io_EOF)), []))
  /\
  (forall (r : Reader) (b' : list byte) (n : Z) (err : option error),
     off < fileListEntry.Size (openFile.self f) ->
     bk_NewRangeReader (openFile.bucket f)
       (fileListEntry.Path (openFile.self f)) off (len b) = Ok r ->
     value (Reader_Read r b) = (b', n, err) ->
     off + n = fileListEntry.Size (openFile.self f) ->
     openFile.ReadAt f b off =
       ((f, b', (n, Some io_EOF)),
        [EvNewRangeReader (fileListEntry.Path (openFile.self f)) off (len b);
         EvRead (len b)])).
Proof.
  intros Hb Hsize. unfold openFile.ReadAt.
  rewrite (len_eqb_nonempty b Hb). split.
  - intros Hoff.
    destruct (off >=? fileListEntry.Size (openFile.self f)) eqn:E;
      [reflexivity|].
    rewrite Z.geb_leb in E. apply Z.leb_gt in E. lia.
  - intros r b' n err Hoff Hr Hread Hend.
    destruct (off >=? fileListEntry.Size (openFile.self f)) eqn:E.
    { rewrite Z.geb_leb in E. apply Z.leb_le in E. lia. }
    unfold bind, Bucket_NewRangeReader. rewrite Hr.
    rewrite Reader_Read_eta, Hread. simpl.
    unfold add64. rewrite Hend, (wrap64_id _ Hsize), Z.eqb_refl.
    reflexivity.
Qed.

Lemma ReadAt_end_of_stream_witness :
  openFile.ReadAt foo_file (repeat x00 3) 5 =
    ((foo_file, repeat x00 3, (0, Some io_EOF)), [])
  /\
  openFile.ReadAt foo_file (repeat x00 3) 2 =
    ((foo_file, bytes_of_string "llo", (3, Some io_EOF)),
     [EvNewRangeReader "foo.txt" 2 3; EvRead 3]).
Proof.
  split.
  - apply (ReadAt_end_of_stream foo_file (repeat x00 3) 5).
    + discriminate.
    + evaluate.
    + evaluate.
  - apply (proj2 (ReadAt_end_of_stream foo_file (repeat x00 3) 2
                    ltac:(discriminate) ltac:(evaluate))
             (demo_reader foo_bytes 2 3) (bytes_of_string "llo") 3 None).
    + evaluate.
    + reflexivity.
    + reflexivity.
    + reflexivity.
Defined.

(** C9. [ReadAt] never moves the cursor: whatever the buffer, the offset
    and the way the call ends, the handle after it is the handle before it,
    so a [Read] or a [Seek] from the current position that follows behaves
    as it would have without the [ReadAt]. *)
Theorem ReadAt_keeps_cursor (f : openFile.t) (b : list byte) (off : Z) :
  let f' := fst (fst (value (openFile.ReadAt f b off))) in
  openFile.offset f' = openFile.offset f
  /\ (forall b2 : list byte, openFile.Read f' b2 = openFile.Read f b2)
  /\ (forall o : Z,
        openFile.Seek f' o openFile.SeekCurrent =
        openFile.Seek f o openFile.SeekCurrent).
Proof.
  intros f'. subst f'. rewrite ReadAt_handle. repeat split.
Qed.

(** C7. [Read] with an empty buffer gives 0 bytes and no error; with a
    non-empty buffer and the cursor at or past the size it gives 0 bytes and
    [io.EOF]; otherwise it asks the store for one ranged reader at the
    cursor for the length of the buffer, and either that fails (0 bytes, the
    error wrapped with the operation and path, cursor unmoved) or the one
    [Read] on it delivers n bytes and the cursor moves by exactly n, also
    when that [Read] reports an error; the count comes back with the error
    of the [Read] or, if there was none, of the [Close]. *)
Theorem Read_cases (f : openFile.t) (b : list byte) :
  let size := fileListEntry.Size (openFile.self f) in
  let path := fileListEntry.Path (openFile.self f) in
  let cur := openFile.offset f in
  (b = [] -> openFile.Read f b = ((f, b, (0, None)), []))
  /\
  (b <> [] -> size <= cur ->
   openFile.Read f b = ((f, b, (0, Some io_EOF)), []))
  /\
  (forall e : error,
     b <> [] -> cur < size ->
     bk_NewRangeReader (openFile.bucket f) path cur (len b) = Err e ->
     openFile.Read f b =
       ((f, b, (0, Some (fs_PathError opRead path e))),
        [EvNewRangeReader path cur (len b)]))
  /\
  (forall (r : Reader) (b' : list byte) (n : Z) (err : option error),
     b <> [] -> cur < size ->
     bk_NewRangeReader (openFile.bucket f) path cur (len b) = Ok r ->
     value (Reader_Read r b) = (b', n, err) ->
     int64_ok (cur + n) ->
     openFile.Read f b =
       ((openFile.set_offset f (cur + n), b',
         (n, match err with Some e => Some e | None => rd_close r end)),
        EvNewRangeReader path cur (len b) :: EvRead (len b) ::
        match err with Some _ => [] | None => [EvClose] end)).
Proof.
  intros size path cur. unfold openFile.Read.
  fold size path cur. repeat split.
  - intros ->. reflexivity.
  - intros Hb Hcur. rewrite (len_eqb_nonempty b Hb).
    destruct (cur >=? size) eqn:E; [reflexivity|].
    rewrite Z.geb_leb in E. apply Z.leb_gt in E. lia.
  - intros e Hb Hcur Hr. rewrite (len_eqb_nonempty b Hb).
    destruct (cur >=? size) eqn:E.
    { rewrite Z.geb_leb in E. apply Z.leb_le in E. lia. }
    unfold bind, Bucket_NewRangeReader. rewrite Hr. reflexivity.
  - intros r b' n err Hb Hcur Hr Hread Hn.
    rewrite (len_eqb_nonempty b Hb).
    destruct (cur >=? size) eqn:E.
    { rewrite Z.geb_leb in E. apply Z.leb_le in E. lia. }
    unfold bind, Bucket_NewRangeReader. rewrite Hr.
    rewrite Reader_Read_eta, Hread. simpl.
    unfold add64. rewrite (wrap64_id _ Hn).
    destruct err; reflexivity.
Qed.

Lemma Read_cases_witness :
  openFile.Read foo_file [] = ((foo_file, [], (0, None)), [])
  /\
  openFile.Read (openFile.set_offset foo_file 5) (repeat x00 3) =
    ((openFile.set_offset foo_file 5, repeat x00 3, (0, Some io_EOF)), [])
  /\
  openFile.Read foo_file (repeat x00 3) =
    ((openFile.set_offset foo_file 3, bytes_of_string "hel", (3, None)),
     [EvNewRangeReader "foo.txt" 0 3; EvRead 3; EvClose]).
Proof.
  split; [|split].
  - apply (proj1 (Read_cases foo_file [])). reflexivity.
  - apply (proj1 (proj2 (Read_cases (openFile.set_offset foo_file 5)
                           (repeat x00 3)))).
    + discriminate.
    + evaluate.
  - apply (proj2 (proj2 (proj2 (Read_cases foo_file (repeat x00 3))))
             (demo_reader foo_bytes 0 3) (bytes_of_string "hel") 3 None).
    + discriminate.
    + evaluate.
    + reflexivity.
    + reflexivity.
    + evaluate.
Defined.

(** The range test of [Seek] on a sum of two [int64] values: the wrapped
    sum passes exactly when the true sum lies in [0, size]. *)
Lemma seek_range_test (size a c : Z) :
  int64_ok size -> int64_ok a -> int64_ok c ->
  (c < 0 -> size < 0) ->
  ((add64 a c <? 0) || (add64 a c >? size)) =
  negb ((0 <=? a + c) && (a + c <=? size)).
Proof.
  unfold int64_ok, add64. intros Hs Ha Hc Hlow.
  assert (Hcases :
            (int64_ok (a + c) /\ wrap64 (a + c) = a + c)
            \/ (2 ^ 63 <= a + c /\ wrap64 (a + c) = a + c - 2 ^ 64)
            \/ (a + c < - 2 ^ 63 /\ wrap64 (a + c) = a + c + 2 ^ 64)).
  { destruct (Z_lt_le_dec (a + c) (- 2 ^ 63)) as [Hu|Hu].
    - right; right. split; [lia|]. apply wrap64_under. lia.
    - destruct (Z_lt_le_dec (a + c) (2 ^ 63)) as [Ho|Ho].
      + left. split; [unfold int64_ok; lia|]. apply wrap64_id.
        unfold int64_ok; lia.
      + right; left. split; [lia|]. apply wrap64_over. lia. }
  rewrite Z.gtb_ltb.
  destruct Hcases as [[_ ->] | [[Ho ->] | [Hu ->]]].
  - destruct (Z.ltb_spec (a + c) 0), (Z.ltb_spec size (a + c)),
      (Z.leb_spec 0 (a + c)), (Z.leb_spec (a + c) size);
      simpl; try reflexivity; lia.
  - destruct (Z.ltb_spec (a + c - 2 ^ 64) 0),
      (Z.leb_spec 0 (a + c)), (Z.leb_spec (a + c) size);
      simpl; try reflexivity; lia.
  - assert (Hneg : size < 0) by (apply Hlow; lia).
    destruct (Z.ltb_spec (a + c + 2 ^ 64) 0),
      (Z.ltb_spec size (a + c + 2 ^ 64)),
      (Z.leb_spec 0 (a + c)), (Z.leb_spec (a + c) size);
      simpl; try reflexivity; lia.
Qed.

(** [Seek] in terms of the true position, for a handle whose cursor is a
    non-negative [int64]. *)
Lemma Seek_spec (f : openFile.t) (off whence : Z) :
  int64_ok off ->
  int64_ok (fileListEntry.Size (openFile.self f)) ->
  0 <= openFile.offset f < 2 ^ 63 ->
  openFile.Seek f off whence =
    match seek_position f off whence with
    | Some pos =>
        if (0 <=? pos) && (pos <=? fileListEntry.Size (openFile.self f))
        then (openFile.set_offset f pos, (pos, None))
        else seek_invalid f
    | None => seek_invalid f
    end.
Proof.
  intros Hoff Hsize Hcur.
  unfold openFile.Seek, seek_position. fold (seek_invalid f).
  set (size := fileListEntry.Size (openFile.self f)) in *.
  destruct (whence =? openFile.SeekStart).
  { rewrite Z.gtb_ltb.
    destruct (Z.ltb_spec off 0), (Z.ltb_spec size off),
      (Z.leb_spec 0 off), (Z.leb_spec off size);
      simpl; try reflexivity; lia. }
  assert (Hafter : forall c : Z,
             int64_ok c -> (c < 0 -> size < 0) ->
             (if (add64 off c <? 0) || (add64 off c >? size)
              then seek_invalid f
              else (openFile.set_offset f (add64 off c), (add64 off c, None)))
             = if (0 <=? off + c) && (off + c <=? size)
               then (openFile.set_offset f (off + c), (off + c, None))
               else seek_invalid f).
  { intros c Hc Hlow.
    rewrite (seek_range_test size off c Hsize Hoff Hc Hlow).
    destruct ((0 <=? off + c) && (off + c <=? size)) eqn:E;
      [|reflexivity].
    apply andb_true_iff in E. destruct E as [E1 E2].
    apply Z.leb_le in E1, E2. simpl.
    unfold add64. rewrite wrap64_id; [reflexivity|].
    unfold int64_ok in *. lia. }
  destruct (whence =? openFile.SeekCurrent).
  { apply Hafter; unfold int64_ok; lia. }
  destruct (whence =? openFile.SeekEnd); [|reflexivity].
  apply Hafter; [exact Hsize | lia].
Qed.

(** [Seek] keeps the cursor a non-negative [int64]. *)
Lemma Seek_cursor_in_range (f : openFile.t) (off whence : Z) :
  int64_ok off ->
  int64_ok (fileListEntry.Size (openFile.self f)) ->
  0 <= openFile.offset f < 2 ^ 63 ->
  0 <= openFile.offset (fst (openFile.Seek f off whence)) < 2 ^ 63.
Proof.
  intros Hoff Hsize Hcur.
  rewrite (Seek_spec f off whence Hoff Hsize Hcur).
  destruct (seek_position f off whence) as [pos|]; [|exact Hcur].
  destruct ((0 <=? pos) && (pos <=? _)) eqn:E; [|exact Hcur].
  apply andb_true_iff in E. destruct E as [E1 E2].
  apply Z.leb_le in E1, E2. cbn [fst openFile.set_offset openFile.offset].
  unfold int64_ok in Hsize. lia.
Qed.

(** C6. [Seek] on a file of size S aims at [off] from the start, from the
    cursor or from the end.  For an unknown [whence], and for a position
    outside [0, S], it fails with [fs.ErrInvalid] (wrapped with the
    operation and path) and hands the handle back unchanged; otherwise it
    sets the cursor to the position and returns it.  Seeking to S succeeds;
    seeking to S + 1 or to -1 fails. *)
Theorem Seek_cases (f : openFile.t) (off whence : Z) :
  let size := fileListEntry.Size (openFile.self f) in
  int64_ok off ->
  int64_ok size ->
  0 <= openFile.offset f < 2 ^ 63 ->
  (forall pos : Z,
     seek_position f off whence = Some pos -> 0 <= pos <= size ->
     openFile.Seek f off whence = (openFile.set_offset f pos, (pos, None)))
  /\
  (forall pos : Z,
     seek_position f off whence = Some pos -> pos < 0 \/ size < pos ->
     openFile.Seek f off whence = seek_invalid f)
  /\
  (whence <> openFile.SeekStart -> whence <> openFile.SeekCurrent ->
   whence <> openFile.SeekEnd ->
   openFile.Seek f off whence = seek_invalid f)
  /\
  (0 <= size ->
   openFile.Seek f size openFile.SeekStart =
     (openFile.set_offset f size, (size, None)))
  /\
  (int64_ok (size + 1) ->
   openFile.Seek f (size + 1) openFile.SeekStart = seek_invalid f)
  /\ openFile.Seek f 1 openFile.SeekEnd = seek_invalid f
  /\ openFile.Seek f (-1) openFile.SeekStart = seek_invalid f.
Proof.
  intros size Hoff Hsize Hcur.
  assert (Hpass : forall pos : Z, 0 <= pos <= size ->
                    (0 <=? pos) && (pos <=? size) = true).
  { intros pos Hp. apply andb_true_iff.
    split; apply Z.leb_le; lia. }
  assert (Hfail : forall pos : Z, pos < 0 \/ size < pos ->
                    (0 <=? pos) && (pos <=? size) = false).
  { intros pos Hp. apply andb_false_iff.
    destruct Hp; [left | right]; apply Z.leb_gt; lia. }
  split; [|split; [|split; [|split; [|split; [|split]]]]].
  - intros pos Hpos Hin.
    rewrite (Seek_spec f off whence Hoff Hsize Hcur), Hpos.
    fold size. now rewrite (Hpass pos Hin).
  - intros pos Hpos Hout.
    rewrite (Seek_spec f off whence Hoff Hsize Hcur), Hpos.
    fold size. now rewrite (Hfail pos Hout).
  - intros H0 H1 H2.
    rewrite (Seek_spec f off whence Hoff Hsize Hcur).
    unfold seek_position.
    destruct (Z.eqb_spec whence openFile.SeekStart); [contradiction|].
    destruct (Z.eqb_spec whence openFile.SeekCurrent); [contradiction|].
    destruct (Z.eqb_spec whence openFile.SeekEnd); [contradiction|].
    reflexivity.
  - intros Hnn.
    rewrite (Seek_spec f size openFile.SeekStart Hsize Hsize Hcur).
    unfold seek_position. simpl. fold size.
    rewrite Hpass by lia. reflexivity.
  - intros Hnext.
    rewrite (Seek_spec f (size + 1) openFile.SeekStart Hnext Hsize Hcur).
    unfold seek_position. simpl. fold size.
    rewrite Hfail by lia. reflexivity.
  - rewrite (Seek_spec f 1 openFile.SeekEnd ltac:(evaluate) Hsize Hcur).
    change (seek_position f 1 openFile.SeekEnd) with (Some (1 + size)).
    cbv beta iota. fold size. rewrite Hfail by lia. reflexivity.
  - rewrite (Seek_spec f (-1) openFile.SeekStart ltac:(evaluate) Hsize Hcur).
    change (seek_position f (-1) openFile.SeekStart) with (Some (-1)).
    cbv beta iota. fold size. rewrite Hfail by lia. reflexivity.
Qed.

Lemma Seek_cases_witness :
  openFile.Seek (openFile.set_offset foo_file 2) 3 openFile.SeekCurrent =
    (openFile.set_offset foo_file 5, (5, None))
  /\
  openFile.Seek (openFile.set_offset foo_file 2) (-3) openFile.SeekCurrent =
    seek_invalid (openFile.set_offset foo_file 2)
  /\
  openFile.Seek foo_file 0 7 = seek_invalid foo_file.
Proof.
  split; [|split].
  - apply (proj1 (Seek_cases (openFile.set_offset foo_file 2) 3
                    openFile.SeekCurrent
                    ltac:(evaluate) ltac:(evaluate) ltac:(evaluate)) 5).
    + reflexivity.
    + evaluate.
  - apply (proj1 (proj2 (Seek_cases (openFile.set_offset foo_file 2) (-3)
                           openFile.SeekCurrent
                           ltac:(evaluate) ltac:(evaluate) ltac:(evaluate)))
             (-1)).
    + reflexivity.
    + left. evaluate.
  - apply (proj1 (proj2 (proj2 (Seek_cases foo_file 0 7
                                  ltac:(evaluate) ltac:(evaluate)
                                  ltac:(evaluate)))));
      discriminate.
Defined.

(** ** Open directories *)

(** [collect] is the loop of [newOpenDir] over [ListIterator_Next]. *)
Lemma collect_step (pend : list ListObject) (fin : error)
  (files : list fileListEntry.t) :
  openDir.collect pend fin files =
    ('(r, it) <- ListIterator_Next (mkListIterator pend fin) ;;
     match r with
     | Err err => if is_EOF err then ret (Ok files) else ret (Err err)
     | Ok obj =>
         openDir.collect (pending it) (final it)
           (files ++ [fileListEntry.mk obj])
     end).
Proof.
  destruct pend as [|obj rest]; reflexivity.
Qed.

(** A listing that ends cleanly gives all its objects, in order, after one
    [Next] per object and one more for the end. *)
Lemma collect_all (pend : list ListObject) (files : list fileListEntry.t) :
  openDir.collect pend io_EOF files =
    (Ok (files ++ List.map fileListEntry.mk pend),
     repeat EvNext (S (List.length pend))).
Proof.
  revert files. induction pend as [|obj rest IH]; intros files.
  - simpl. now rewrite app_nil_r.
  - cbn [openDir.collect]. unfold bind, ListIterator_Next.
    cbn [pending]. rewrite IH. cbn [List.map List.length repeat app].
    now rewrite <- app_assoc.
Qed.

Lemma skipn_nth_error {A : Type} (l : list A) (k : nat) (x : A) :
  nth_error l k = Some x -> skipn k l = x :: skipn (S k) l.
Proof.
  revert k. induction l as [|a l IH]; intros [|k] H; simpl in *;
    try discriminate.
  - now inversion H.
  - now apply IH.
Qed.

(** The copy loop of [ReadDir] yields the next [c] entries when they are
    there. *)
Lemma copy_range_seq {A : Type} (src : list A) (off : Z) (c s : nat) :
  0 <= off -> len src < 2 ^ 63 ->
  off + Z.of_nat s + Z.of_nat c <= len src ->
  openDir.copy_range src off (seq s c) =
    Done (firstn c (skipn (Z.to_nat off + s) src)).
Proof.
  intros Hoff Hlen. revert s.
  induction c as [|c IH]; intros s Hfit; simpl; [reflexivity|].
  unfold add64. rewrite wrap64_id by (unfold int64_ok; lia).
  unfold openDir.index.
  destruct (Z.ltb_spec (off + Z.of_nat s) 0) as [Hneg|_]; [lia|].
  replace (Z.to_nat (off + Z.of_nat s)) with (Z.to_nat off + s)%nat by lia.
  destruct (nth_error src (Z.to_nat off + s)) as [x|] eqn:Hx.
  - rewrite IH by lia.
    rewrite (skipn_nth_error src _ x Hx). simpl.
    now replace (Z.to_nat off + S s)%nat with (S (Z.to_nat off + s)) by lia.
  - apply nth_error_None in Hx. unfold len in *. lia.
Qed.

(** [ReadDir] on a handle whose cursor lies within its children: the page
    it returns and the cursor it leaves. *)
Lemma ReadDir_next_page (d : openDir.t) (n : Z) :
  let k := len (openDir.entries d) - openDir.offset d in
  let count := if (n >? 0) && (k >? n) then n else k in
  0 <= openDir.offset d <= len (openDir.entries d) ->
  len (openDir.entries d) < 2 ^ 63 ->
  0 < k ->
  openDir.ReadDir d n =
    Done (openDir.set_offset d (openDir.offset d + count),
          (Some (firstn (Z.to_nat count)
                   (skipn (Z.to_nat (openDir.offset d)) (openDir.entries d))),
           None)).
Proof.
  intros k count Hcur Hlen Hk. unfold openDir.ReadDir. fold k.
  rewrite (wrap64_id k) by (unfold int64_ok; lia). fold count.
  assert (Hcount : 0 < count <= k).
  { unfold count. rewrite Z.gtb_ltb, Z.gtb_ltb.
    destruct (Z.ltb_spec 0 n), (Z.ltb_spec n k); simpl; lia. }
  destruct (Z.eqb_spec count 0) as [E|_]; [lia|].
  destruct (Z.ltb_spec count 0) as [E|_]; [lia|].
  rewrite copy_range_seq by lia.
  unfold add64. rewrite wrap64_id by (unfold int64_ok; lia).
  now rewrite Nat.add_0_r.
Qed.

(** [ReadDir] on a handle with nothing left. *)
Lemma ReadDir_exhausted (d : openDir.t) (n : Z) :
  len (openDir.entries d) - openDir.offset d = 0 ->
  openDir.ReadDir d n =
    Done (d, (None, if n <=? 0 then None else Some io_EOF)).
Proof.
  intros Hk. unfold openDir.ReadDir. rewrite Hk.
  change (wrap64 0) with 0.
  replace ((n >? 0) && (0 >? n)) with false.
  2:{ rewrite Z.gtb_ltb, Z.gtb_ltb.
      destruct (Z.ltb_spec 0 n), (Z.ltb_spec n 0); simpl; lia. }
  simpl. now destruct (n <=? 0).
Qed.

(** The cursor of a directory handle starts at 0 and stays within the
    children, and [ReadDir] never panics on such a handle. *)
Lemma newOpenDir_cursor (entry : fileListEntry.t) (bk : Bucket)
  (d : openDir.t) :
  value (openDir.newOpenDir entry bk) = Ok d ->
  openDir.offset d = 0 /\ openDir.self d = entry.
Proof.
  unfold openDir.newOpenDir, bind, Bucket_List, value.
  destruct (openDir.collect _ _ _) as [[files|err] l]; cbn [ret fst];
    intros H; inversion H. now split.
Qed.

Lemma ReadDir_cursor_ok (d : openDir.t) (n : Z) :
  dir_cursor_ok d ->
  exists (d' : openDir.t)
         (res : option (list fileListEntry.t) * option error),
    openDir.ReadDir d n = Done (d', res) /\ dir_cursor_ok d'.
Proof.
  intros [Hcur Hlen].
  destruct (Z.eq_dec (len (openDir.entries d) - openDir.offset d) 0)
    as [Hk|Hk].
  - rewrite (ReadDir_exhausted d n Hk). do 2 eexists.
    split; [reflexivity|]. now split.
  - rewrite (ReadDir_next_page d n Hcur Hlen ltac:(lia)).
    do 2 eexists. split; [reflexivity|].
    unfold dir_cursor_ok. cbn [openDir.set_offset openDir.offset openDir.entries].
    rewrite Z.gtb_ltb, Z.gtb_ltb.
    destruct (Z.ltb_spec 0 n), (Z.ltb_spec n
      (len (openDir.entries d) - openDir.offset d)); simpl; lia.
Qed.

(** C2, as the code has it.  On a directory handle with k children not yet
    returned: [ReadDir(n)] with n > 0 and k > 0 returns the next min(n, k)
    children with no error, also when k < n, and moves the cursor by that
    count; with n > 0 and k = 0 it returns nothing together with [io.EOF];
    with n <= 0 it returns all k remaining children with no error, and
    nothing with no error when k = 0. *)
Theorem ReadDir_pages (d : openDir.t) (n : Z) :
  let k := len (openDir.entries d) - openDir.offset d in
  let rest := skipn (Z.to_nat (openDir.offset d)) (openDir.entries d) in
  0 <= openDir.offset d <= len (openDir.entries d) ->
  len (openDir.entries d) < 2 ^ 63 ->
  len rest = k
  /\
  (0 < n -> 0 < k ->
   openDir.ReadDir d n =
     Done (openDir.set_offset d (openDir.offset d + Z.min n k),
           (Some (firstn (Z.to_nat (Z.min n k)) rest), None))
   /\ len (firstn (Z.to_nat (Z.min n k)) rest) = Z.min n k)
  /\
  (0 < n -> k = 0 -> openDir.ReadDir d n = Done (d, (None, Some io_EOF)))
  /\
  (n <= 0 -> 0 < k ->
   openDir.ReadDir d n =
     Done (openDir.set_offset d (len (openDir.entries d)),
           (Some rest, None)))
  /\
  (n <= 0 -> k = 0 -> openDir.ReadDir d n = Done (d, (None, None))).
Proof.
  intros k rest Hcur Hlen.
  assert (Hrest : len rest = k).
  { unfold rest, k, len. rewrite length_skipn. unfold len in Hcur. lia. }
  split; [exact Hrest|]. split; [|split; [|split]].
  - intros Hn Hk. split.
    + rewrite (ReadDir_next_page d n Hcur Hlen Hk). fold k rest.
      replace (if (n >? 0) && (k >? n) then n else k) with (Z.min n k);
        [reflexivity|].
      rewrite Z.gtb_ltb, Z.gtb_ltb.
      destruct (Z.ltb_spec 0 n), (Z.ltb_spec n k); simpl; lia.
    + unfold len in *. rewrite length_firstn. lia.
  - intros Hn Hk. rewrite (ReadDir_exhausted d n Hk).
    destruct (Z.leb_spec n 0); [lia | reflexivity].
  - intros Hn Hk.
    rewrite (ReadDir_next_page d n Hcur Hlen Hk). fold k rest.
    replace ((n >? 0) && (k >? n)) with false.
    2:{ rewrite Z.gtb_ltb. destruct (Z.ltb_spec 0 n); simpl; lia. }
    rewrite <- Hrest. unfold len. rewrite Nat2Z.id, firstn_all.
    fold (len rest). rewrite Hrest. unfold k.
    now replace (openDir.offset d + (len (openDir.entries d) - openDir.offset d))
      with (len (openDir.entries d)) by lia.
  - intros Hn Hk. rewrite (ReadDir_exhausted d n Hk).
    destruct (Z.leb_spec n 0); [reflexivity | lia].
Qed.

Lemma ReadDir_pages_witness :
  openDir.ReadDir demo_dir 1 =
    Done (openDir.set_offset demo_dir 1, (Some [dir_entry "a"], None))
  /\
  openDir.ReadDir (openDir.set_offset demo_dir 2) 1 =
    Done (openDir.set_offset demo_dir 2, (None, Some io_EOF))
  /\
  openDir.ReadDir (openDir.set_offset demo_dir 2) (-1) =
    Done (openDir.set_offset demo_dir 2, (None, None)).
Proof.
  split; [|split].
  - apply (proj1 (proj2 (ReadDir_pages demo_dir 1
                           ltac:(evaluate) ltac:(evaluate))));
      evaluate.
  - apply (proj1 (proj2 (proj2 (ReadDir_pages (openDir.set_offset demo_dir 2) 1
                                  ltac:(evaluate) ltac:(evaluate)))));
      evaluate.
  - apply (proj2 (proj2 (proj2 (proj2
             (ReadDir_pages (openDir.set_offset demo_dir 2) (-1)
                ltac:(evaluate) ltac:(evaluate))))));
      evaluate.
Defined.

(** C2 as stated fails where 0 < k < n: with two children left,
    [ReadDir(3)] returns both with a nil error, not with [io.EOF]. *)
Lemma ReadDir_short_page_without_EOF :
  len (openDir.entries demo_dir) - openDir.offset demo_dir = 2
  /\
  openDir.ReadDir demo_dir 3 =
    Done (openDir.set_offset demo_dir 2,
          (Some [dir_entry "a"; dir_entry "b"], None))
  /\
  ~ (exists (d' : openDir.t) (es : option (list fileListEntry.t)),
       openDir.ReadDir demo_dir 3 = Done (d', (es, Some io_EOF))).
Proof.
  split; [reflexivity|]. split; [reflexivity|].
  intros (d' & es & H). vm_compute in H. discriminate H.
Qed.

(** ** Paths *)

Lemma HasSuffix_slash_cons (c : ascii) (r : string) :
  HasSuffix (String c r) "/" =
    match r with
    | EmptyString => Ascii.eqb c "/"
    | String _ _ => HasSuffix r "/"
    end.
Proof.
  unfold HasSuffix. destruct r as [|c' r'].
  - simpl. now destruct (Ascii.eqb c "/").
  - cbn [String.length Nat.leb Nat.sub andb].
    rewrite Nat.sub_0_r. reflexivity.
Qed.

Lemma HasSuffix_app_slash (s : string) : HasSuffix (s ++ "/") "/" = true.
Proof.
  induction s as [|c s IH]; [reflexivity|].
  cbn [String.append]. rewrite HasSuffix_slash_cons.
  destruct s; [reflexivity | exact IH].
Qed.

(** A name whose elements are all valid does not end in a slash. *)
Lemma valid_elems_no_trailing_slash (s cur : string) :
  valid_elems cur s = true -> HasSuffix s "/" = false.
Proof.
  revert cur. induction s as [|c r IH]; intros cur H; [reflexivity|].
  rewrite HasSuffix_slash_cons. simpl in H.
  destruct (Ascii.eqb c "/") eqn:Ec.
  - apply andb_true_iff in H. destruct H as [_ H].
    destruct r; [discriminate H | exact (IH _ H)].
  - destruct r; [reflexivity | exact (IH _ H)].
Qed.

Lemma ValidPath_no_trailing_slash (name : string) :
  ValidPath name = true -> HasSuffix name "/" = false.
Proof.
  unfold ValidPath. destruct (utf8_ValidString name); [|discriminate].
  simpl. destruct (String.eqb_spec name ".") as [->|_]; [reflexivity|].
  apply valid_elems_no_trailing_slash.
Qed.

Lemma TrimSuffix_ValidPath (name : string) :
  ValidPath name = true -> TrimSuffix name "/" = name.
Proof.
  intros H. unfold TrimSuffix.
  now rewrite (ValidPath_no_trailing_slash name H).
Qed.

(** [Name] of an entry whose key is a path followed by the separator: the
    separator is dropped and the last segment of the path is returned. *)
Lemma length_app_slash (p : string) :
  String.length (p ++ "/") = S (String.length p).
Proof.
  induction p as [|c p IH]; [reflexivity|]. simpl. now rewrite IH.
Qed.

Lemma get_app_slash (p : string) :
  String.get (String.length p) (p ++ "/") = Some "/"%char.
Proof.
  induction p as [|c p IH]; [reflexivity | exact IH].
Qed.

Lemma substring_app_slash (p : string) :
  substring 0 (String.length p) (p ++ "/") = p.
Proof.
  induction p as [|c p IH]; [reflexivity|]. simpl. now rewrite IH.
Qed.

Lemma Name_of_directory_key (p : string) (o : ListObject) :
  p <> "" -> Key o = (p ++ "/")%string ->
  fileListEntry.Name (fileListEntry.mk o) = last (Split_slash p) "".
Proof.
  intros Hp Hkey. unfold fileListEntry.Name, fileListEntry.last_byte.
  cbn [fileListEntry.obj]. rewrite Hkey.
  destruct (String.eqb_spec (p ++ "/") "") as [E|_].
  { destruct p; [contradiction | discriminate E]. }
  rewrite length_app_slash. cbn [Nat.sub]. rewrite Nat.sub_0_r.
  rewrite get_app_slash. cbn [Ascii.eqb Bool.eqb].
  now rewrite substring_app_slash.
Qed.

(** ** Path resolution *)

Lemma searchDir_ValidPath (fsys : FS.t) (name : string) :
  ValidPath name = true ->
  FS.searchDir fsys name =
    (probe_result name (bk_List (FS.bucket fsys) "/" name),
     [EvList "/" name; EvNext]).
Proof.
  intros Hv. unfold FS.searchDir, probe_result.
  rewrite (TrimSuffix_ValidPath name Hv).
  unfold bind, Bucket_List, ListIterator_Next.
  destruct (pending (bk_List (FS.bucket fsys) "/" name)) as [|obj rest].
  - simpl. now destruct (is_EOF _).
  - simpl. now destruct (String.eqb _ _).
Qed.

(** A failed attributes fetch, whatever its error, leads to the probe. *)
Lemma lookup_attributes_failed (fsys : FS.t) (name : string) (e : error) :
  ValidPath name = true -> name <> "." ->
  bk_Attributes (FS.bucket fsys) name = Err e ->
  FS.lookup fsys name =
    (probe_result name (bk_List (FS.bucket fsys) "/" name),
     [EvAttributes name; EvList "/" name; EvNext]).
Proof.
  intros Hv Hroot Hattr. unfold FS.lookup. rewrite Hv. cbn [negb].
  destruct (String.eqb_spec name ".") as [E|_]; [contradiction|].
  unfold Bucket_Attributes. rewrite Hattr. cbn [bind].
  now rewrite (searchDir_ValidPath fsys name Hv).
Qed.

Lemma lookup_attributes_found (fsys : FS.t) (name : string)
  (attr : Attributes) :
  ValidPath name = true -> name <> "." ->
  bk_Attributes (FS.bucket fsys) name = Ok attr ->
  FS.lookup fsys name =
    (Ok (fileListEntry.mk
           (mkListObject name (attr_ModTime attr) (attr_Size attr)
              (attr_MD5 attr) false)),
     [EvAttributes name]).
Proof.
  intros Hv Hroot Hattr. unfold FS.lookup. rewrite Hv. cbn [negb].
  destruct (String.eqb_spec name ".") as [E|_]; [contradiction|].
  unfold Bucket_Attributes. now rewrite Hattr.
Qed.

(** C3, as the code has it.  For a valid non-root path, when the attributes
    fetch fails with any error at all, [lookup] drops that error and runs
    the directory probe: its result and its calls to the store are those of
    [searchDir] after the one attributes call. *)
Theorem lookup_any_attributes_error_probes (fsys : FS.t) (name : string)
  (e : error) :
  ValidPath name = true -> name <> "." ->
  bk_Attributes (FS.bucket fsys) name = Err e ->
  FS.lookup fsys name =
    (value (FS.searchDir fsys name),
     EvAttributes name :: calls (FS.searchDir fsys name)).
Proof.
  intros Hv Hroot Hattr.
  rewrite (lookup_attributes_failed fsys name e Hv Hroot Hattr).
  now rewrite (searchDir_ValidPath fsys name Hv).
Qed.

Lemma lookup_any_attributes_error_probes_witness :
  FS.lookup demo_fs "denied.txt" =
    (value (FS.searchDir demo_fs "denied.txt"),
     EvAttributes "denied.txt" :: calls (FS.searchDir demo_fs "denied.txt")).
Proof.
  apply (lookup_any_attributes_error_probes demo_fs "denied.txt" err_denied).
  - reflexivity.
  - discriminate.
  - reflexivity.
Defined.

(** C3 as stated fails: the attributes fetch of [denied.txt] fails with a
    permission error, not with not-found, and [lookup] answers
    [fs.ErrNotExist] after probing the listing. *)
Lemma lookup_turns_permission_error_into_NotExist :
  ValidPath "denied.txt" = true
  /\ bk_Attributes (FS.bucket demo_fs) "denied.txt" =
       Err (backend_error 8 "blob: permission denied")
  /\ FS.lookup demo_fs "denied.txt" =
       (Err fs_ErrNotExist,
        [EvAttributes "denied.txt"; EvList "/" "denied.txt"; EvNext])
  /\ value (FS.lookup demo_fs "denied.txt") <>
       Err (backend_error 8 "blob: permission denied").
Proof.
  repeat split. discriminate.
Qed.

(** C8. For a valid non-root path p whose attributes fetch fails, the
    resolver lists with prefix p and delimiter [/] and asks the iterator for
    one result only.  If that first key is p followed by [/], the path
    resolves to the entry of that listed object, a directory (the store
    flags the keys it cuts at the delimiter as directories); if the first
    key is anything else, or the listing is empty, resolution fails with
    [fs.ErrNotExist]; any other listing error is returned as it is. *)
Theorem lookup_directory_probe (fsys : FS.t) (name : string) (e : error) :
  let it := bk_List (FS.bucket fsys) "/" name in
  ValidPath name = true -> name <> "." ->
  bk_Attributes (FS.bucket fsys) name = Err e ->
  (forall obj : ListObject,
     In obj (pending it) -> Key obj = (name ++ "/")%string ->
     IsDir obj = true) ->
  calls (FS.lookup fsys name) = [EvAttributes name; EvList "/" name; EvNext]
  /\
  (forall (obj : ListObject) (rest : list ListObject),
     pending it = obj :: rest -> Key obj = (name ++ "/")%string ->
     value (FS.lookup fsys name) = Ok (fileListEntry.mk obj)
     /\ fileListEntry.IsDir (fileListEntry.mk obj) = true)
  /\
  (forall (obj : ListObject) (rest : list ListObject),
     pending it = obj :: rest -> Key obj <> (name ++ "/")%string ->
     value (FS.lookup fsys name) = Err fs_ErrNotExist)
  /\
  (pending it = [] -> final it = io_EOF ->
   value (FS.lookup fsys name) = Err fs_ErrNotExist)
  /\
  (pending it = [] -> final it <> io_EOF ->
   value (FS.lookup fsys name) = Err (final it)).
Proof.
  intros it Hv Hroot Hattr Hdir.
  rewrite (lookup_attributes_failed fsys name e Hv Hroot Hattr).
  fold it. unfold value, calls, probe_result. cbn [fst snd].
  split; [reflexivity|]. split; [|split; [|split]].
  - intros obj rest Hp Hkey. rewrite Hp. split.
    + apply String.eqb_eq in Hkey. now rewrite Hkey.
    + apply Hdir; [rewrite Hp; now left | exact Hkey].
  - intros obj rest Hp Hkey. rewrite Hp.
    apply String.eqb_neq in Hkey. now rewrite Hkey.
  - intros Hp Hfin. now rewrite Hp, Hfin.
  - intros Hp Hfin. rewrite Hp.
    destruct (final it); try reflexivity. now contradiction Hfin.
Qed.

Lemma lookup_directory_probe_witness :
  value (FS.lookup demo_fs "dir1") =
    Ok (fileListEntry.mk (mkListObject "dir1/" 0 0 [] true))
  /\
  value (FS.lookup demo_fs "dir1/nope.txt") = Err fs_ErrNotExist
  /\
  value (FS.lookup demo_fs "flaky") = Err err_network.
Proof.
  split; [|split].
  - apply (proj1 (proj2 (lookup_directory_probe demo_fs "dir1" err_not_found
                           ltac:(reflexivity) ltac:(discriminate)
                           ltac:(reflexivity)
                           ltac:(intros obj [<-|[]] _; reflexivity)))
             _ []); reflexivity.
  - apply (proj1 (proj2 (proj2 (proj2
             (lookup_directory_probe demo_fs "dir1/nope.txt" err_not_found
                ltac:(reflexivity) ltac:(discriminate) ltac:(reflexivity)
                ltac:(intros obj [])))))); reflexivity.
  - apply (proj2 (proj2 (proj2 (proj2
             (lookup_directory_probe demo_fs "flaky" err_not_found
                ltac:(reflexivity) ltac:(discriminate) ltac:(reflexivity)
                ltac:(intros obj [])))))); [reflexivity | discriminate].
Defined.

(** C4, as the code has it.  The key stored in an entry that path
    resolution produces is empty for the root and is the path itself for a
    file, and in both cases does not end in [/]; for a directory found by
    the probe it is the listed key, the path followed by [/], and so does
    end in the separator, which [Name] drops when it takes the last segment
    of the path. *)
Theorem lookup_key_shape (fsys : FS.t) (name : string)
  (e : fileListEntry.t) :
  value (FS.lookup fsys name) = Ok e -> key_shape fsys name e.
Proof.
  unfold key_shape. intros H.
  destruct (ValidPath name) eqn:Hv.
  2:{ unfold FS.lookup in H. rewrite Hv in H. discriminate H. }
  destruct (String.eqb_spec name ".") as [Hroot|Hroot].
  - left. subst name. cbv in H. inversion H. repeat split.
  - right.
    destruct (bk_Attributes (FS.bucket fsys) name) as [attr|err] eqn:Hattr.
    + left.
      rewrite (lookup_attributes_found fsys name attr Hv Hroot Hattr) in H.
      inversion H; subst e; clear H.
      unfold fileListEntry.Path, fileListEntry.IsDir. cbn [fileListEntry.obj Key IsDir].
      repeat split; try assumption.
      * now exists attr.
      * now apply ValidPath_no_trailing_slash.
    + right.
      rewrite (lookup_attributes_failed fsys name err Hv Hroot Hattr) in H.
      unfold value, probe_result in H. cbn [fst] in H.
      destruct (pending _) as [|obj rest].
      { destruct (is_EOF _); discriminate H. }
      destruct (String.eqb_spec (Key obj) (name ++ "/")) as [Hkey|_];
        [|discriminate H].
      inversion H; subst e; clear H.
      unfold fileListEntry.Path. cbn [fileListEntry.obj]. rewrite Hkey.
      repeat split; try assumption.
      * now exists err.
      * apply HasSuffix_app_slash.
      * apply Name_of_directory_key; [|exact Hkey].
        intros ->. discriminate Hv.
Qed.

Lemma lookup_key_shape_witness :
  key_shape demo_fs "foo.txt" foo_entry.
Proof.
  apply (lookup_key_shape demo_fs "foo.txt" foo_entry). reflexivity.
Defined.

(** C4 as stated fails for a directory: resolving [dir1] gives an entry
    whose stored key is [dir1/]. *)
Lemma lookup_directory_key_ends_in_slash :
  exists e : fileListEntry.t,
    value (FS.lookup demo_fs "dir1") = Ok e
    /\ fileListEntry.IsDir e = true
    /\ fileListEntry.Path e = "dir1/"
    /\ HasSuffix (fileListEntry.Path e) "/" = true
    /\ fileListEntry.Name e = "dir1".
Proof.
  exists (fileListEntry.mk (mkListObject "dir1/" 0 0 [] true)).
  repeat split.
Qed.

(** ** Opening a resolved entry *)

Lemma is_EOF_true (e : error) : is_EOF e = true -> e = io_EOF.
Proof. destruct e; simpl; intros H; try discriminate H; reflexivity. Qed.

Lemma is_EOF_false (e : error) : e <> io_EOF -> is_EOF e = false.
Proof. destruct e; simpl; intros H; try reflexivity. now contradiction H. Qed.

(** The loop of [newOpenDir] on any listing: all the objects when it ends
    with [io.EOF], the error that ends it otherwise; one [Next] per object
    and one for the end either way. *)
Lemma collect_result (pend : list ListObject) (fin : error)
  (files : list fileListEntry.t) :
  openDir.collect pend fin files =
    (if is_EOF fin then Ok (files ++ List.map fileListEntry.mk pend)
     else Err fin,
     repeat EvNext (S (List.length pend))).
Proof.
  revert files. induction pend as [|obj rest IH]; intros files.
  - simpl. rewrite app_nil_r. now destruct (is_EOF fin).
  - cbn [openDir.collect]. unfold bind, ListIterator_Next.
    cbn [pending]. rewrite IH. cbn [List.map List.length repeat app].
    rewrite <- app_assoc. reflexivity.
Qed.

Lemma newOpenDir_result (entry : fileListEntry.t) (bk : Bucket) :
  let it := bk_List bk "/" (fileListEntry.Path entry) in
  openDir.newOpenDir entry bk =
    (if is_EOF (final it)
     then Ok (openDir.mk entry (List.map fileListEntry.mk (pending it)) 0)
     else Err (final it),
     EvList "/" (fileListEntry.Path entry)
       :: repeat EvNext (S (List.length (pending it)))).
Proof.
  intros it. unfold openDir.newOpenDir, bind, Bucket_List. fold it.
  rewrite collect_result. cbn [app].
  destruct (is_EOF (final it)); cbn [ret]; now rewrite app_nil_r.
Qed.

(** [Open] after [lookup]. *)
Lemma Open_after_lookup (fsys : FS.t) (name : string) :
  FS.Open fsys name =
    let (r, l) := FS.lookup fsys name in
    match r with
    | Err err => (Err (fs_PathError opOpen name err), l)
    | Ok e =>
        if fileListEntry.IsDir e then
          let it := bk_List (FS.bucket fsys) "/" (fileListEntry.Path e) in
          (if is_EOF (final it)
           then Ok (File_openDir
                      (openDir.mk e
                         (List.map fileListEntry.mk (pending it)) 0))
           else Err (fs_PathError opOpen name (final it)),
           l ++ EvList "/" (fileListEntry.Path e)
               :: repeat EvNext (S (List.length (pending it))))
        else (Ok (File_openFile (openFile.mk e (FS.bucket fsys) 0)), l)
    end.
Proof.
  unfold FS.Open, bind.
  destruct (FS.lookup fsys name) as [[e|err] l]; cbn [ret];
    [|now rewrite app_nil_r].
  destruct (fileListEntry.IsDir e).
  - rewrite newOpenDir_result.
    destruct (is_EOF _); cbn [ret]; now rewrite app_nil_r.
  - cbn [openFile.newOpenFile ret]. now rewrite app_nil_r.
Qed.

(** ** Reading a whole file *)

Lemma make_bytes_ok (n : Z) :
  0 <= n <= maxAlloc -> make_bytes n = Done (repeat x00 (Z.to_nat n)).
Proof.
  intros H. unfold make_bytes.
  destruct (Z.ltb_spec n 0) as [Hneg|_]; [lia|].
  destruct (Z.ltb_spec maxAlloc n) as [Hbig|_]; [lia | reflexivity].
Qed.

Lemma make_bytes_panics (n : Z) :
  n < 0 \/ maxAlloc < n -> make_bytes n = Panic.
Proof.
  intros H. unfold make_bytes.
  destruct (Z.ltb_spec n 0) as [Hneg|Hnn]; [reflexivity|].
  destruct (Z.ltb_spec maxAlloc n) as [Hbig|Hsmall]; [reflexivity | lia].
Qed.

Lemma make_bytes_len (n : Z) :
  0 <= n <= maxAlloc ->
  exists b : list byte, make_bytes n = Done b /\ len b = n.
Proof.
  intros H. rewrite (make_bytes_ok n H).
  eexists. split; [reflexivity|].
  unfold len. rewrite repeat_length. lia.
Qed.

(** [ReadAt] keeps the length of the buffer. *)
Lemma ReadAt_buffer_len (f : openFile.t) (b : list byte) (off : Z) :
  len (snd (fst (value (openFile.ReadAt f b off)))) = len b.
Proof.
  unfold openFile.ReadAt.
  destruct (len b =? 0); [reflexivity|].
  destruct (off >=? _); [reflexivity|].
  unfold bind, Bucket_NewRangeReader.
  destruct (bk_NewRangeReader _ _ _ _) as [r|e]; [|reflexivity].
  rewrite Reader_Read_eta.
  destruct (value (Reader_Read r b)) as [[b' n] err] eqn:Hread.
  apply Reader_Read_count in Hread. destruct Hread as [_ Hlen].
  simpl. destruct (add64 off n =? _); [exact Hlen|].
  destruct err; exact Hlen.
Qed.

Lemma ReadFile_after_Open (fsys : FS.t) (name : string) :
  FS.ReadFile fsys name =
    let (r, l) := FS.Open fsys name in
    match r with
    | Err err => (Done (None, Some err), l)
    | Ok (File_openDir _) =>
        (Done (None, Some (fs_PathError opRead name
                             (errors_New "is a directory"))), l)
    | Ok (File_openFile ofile) =>
        match make_bytes (fileListEntry.Size (openFile.self ofile)) with
        | Panic => (Panic, l)
        | Done b =>
            let '((_, b', (_, err)), l') := openFile.ReadAt ofile b 0 in
            (if not_EOF err then Done (None, err) else Done (Some b', None),
             l ++ l')
        end
    end.
Proof.
  unfold FS.ReadFile, bind.
  destruct (FS.Open fsys name) as [[[ofile|d]|err] l]; cbn [ret];
    try now rewrite app_nil_r.
  destruct (make_bytes _) as [b|]; cbn [ret]; [|now rewrite app_nil_r].
  destruct (openFile.ReadAt ofile b 0) as [[[f' b'] [n err]] l'].
  destruct (not_EOF err); cbn [ret]; now rewrite app_nil_r.
Qed.

(** C5, as the code has it.  When the path resolves to a directory,
    [ReadFile] fails: with "is a directory" (under the operation [read] and
    the path) when the children of the directory are listed to the end, and
    with the error that broke the listing (under the operation [open] and
    the path) otherwise.  When the path resolves to a file whose declared
    size S is between 0 and the allocation limit of the runtime, a buffer
    of exactly S bytes is allocated and the store is used, after the
    resolution, for one [ReadAt] of that buffer at offset 0 and nothing
    else; if that [ReadAt] reports [io.EOF] the buffer, still S bytes long,
    is returned with no error, and if it reports any other error that error
    is returned with no bytes. *)
Theorem ReadFile_cases (fsys : FS.t) (name : string)
  (e : fileListEntry.t) :
  let it := bk_List (FS.bucket fsys) "/" (fileListEntry.Path e) in
  let f := openFile.mk e (FS.bucket fsys) 0 in
  value (FS.lookup fsys name) = Ok e ->
  (fileListEntry.IsDir e = true ->
   value (FS.ReadFile fsys name) =
     Done (None,
           Some (if is_EOF (final it)
                 then fs_PathError opRead name (errors_New "is a directory")
                 else fs_PathError opOpen name (final it))))
  /\
  (fileListEntry.IsDir e = false ->
   0 <= fileListEntry.Size e <= maxAlloc ->
   exists b : list byte,
     make_bytes (fileListEntry.Size e) = Done b
     /\ len b = fileListEntry.Size e
     /\ calls (FS.ReadFile fsys name) =
          calls (FS.lookup fsys name) ++ calls (openFile.ReadAt f b 0)
     /\ forall (f' : openFile.t) (b' : list byte) (n : Z)
          (err : option error),
          value (openFile.ReadAt f b 0) = (f', b', (n, err)) ->
          len b' = fileListEntry.Size e
          /\ (err = Some io_EOF ->
              value (FS.ReadFile fsys name) = Done (Some b', None))
          /\ (forall e' : error,
                err = Some e' -> e' <> io_EOF ->
                value (FS.ReadFile fsys name) = Done (None, Some e'))).
Proof.
  intros it f Hlook. split.
  - intros Hdir. rewrite ReadFile_after_Open, Open_after_lookup.
    unfold value in *.
    destruct (FS.lookup fsys name) as [r l]. cbn [fst] in *. subst r.
    rewrite Hdir. fold it. now destruct (is_EOF (final it)).
  - intros Hdir Hsize.
    destruct (make_bytes_len _ Hsize) as (b & Hmake & Hlen).
    exists b. split; [exact Hmake|]. split; [exact Hlen|].
    rewrite ReadFile_after_Open, Open_after_lookup.
    pose proof (ReadAt_buffer_len f b 0) as Hkeep.
    unfold value, calls in *.
    destruct (FS.lookup fsys name) as [r l]. cbn [fst snd] in *. subst r.
    rewrite Hdir. fold f. cbn [openFile.self f]. rewrite Hmake.
    destruct (openFile.ReadAt f b 0) as [[[f1 b1] [n1 err1]] l'].
    cbn [fst snd] in *. split; [reflexivity|].
    intros f' b' n err Heq. inversion Heq; subst; clear Heq.
    split; [congruence|]. split.
    + intros ->. reflexivity.
    + intros e' -> Hne. destruct e'; try reflexivity. now contradiction Hne.
Qed.

Lemma ReadFile_cases_witness :
  value (FS.ReadFile demo_fs "dir1") =
    Done (None, Some (fs_PathError "read" "dir1"
                        (errors_New "is a directory")))
  /\
  exists b : list byte,
    make_bytes 5 = Done b
    /\ len b = 5
    /\ calls (FS.ReadFile demo_fs "foo.txt") =
         calls (FS.lookup demo_fs "foo.txt")
           ++ calls (openFile.ReadAt foo_file b 0)
    /\ forall (f' : openFile.t) (b' : list byte) (n : Z)
         (err : option error),
         value (openFile.ReadAt foo_file b 0) = (f', b', (n, err)) ->
         len b' = 5
         /\ (err = Some io_EOF ->
             value (FS.ReadFile demo_fs "foo.txt") = Done (Some b', None))
         /\ (forall e' : error,
               err = Some e' -> e' <> io_EOF ->
               value (FS.ReadFile demo_fs "foo.txt") = Done (None, Some e')).
Proof.
  split.
  - apply (proj1 (ReadFile_cases demo_fs "dir1"
                    (fileListEntry.mk (mkListObject "dir1/" 0 0 [] true))
                    ltac:(reflexivity))).
    reflexivity.
  - apply (proj2 (ReadFile_cases demo_fs "foo.txt" foo_entry
                    ltac:(reflexivity))).
    + reflexivity.
    + evaluate.
Defined.

(** C5 as stated fails in two places.  [dir1] resolves to a directory, but
    the listing of its children breaks, and [ReadFile] fails with that
    error under the operation [open], not with "is a directory".  And
    [foo.txt] resolves to a file whose declared size is the largest
    [int64]: no buffer of that length is allocated and no [ReadAt] is made,
    the allocation panics. *)
Lemma ReadFile_broken_listing_and_huge_size :
  (exists e : fileListEntry.t,
     value (FS.lookup broken_fs "dir1") = Ok e
     /\ fileListEntry.IsDir e = true)
  /\ value (FS.ReadFile broken_fs "dir1") =
       Done (None, Some (fs_PathError opOpen "dir1" err_network))
  /\ value (FS.ReadFile broken_fs "dir1") <>
       Done (None, Some (fs_PathError opRead "dir1"
                           (errors_New "is a directory")))
  /\ (exists e : fileListEntry.t,
        value (FS.lookup huge_fs "foo.txt") = Ok e
        /\ fileListEntry.IsDir e = false
        /\ fileListEntry.Size e = 2 ^ 63 - 1)
  /\ FS.ReadFile huge_fs "foo.txt" = (Panic, [EvAttributes "foo.txt"]).
Proof.
  split; [|split; [|split; [|split]]].
  - eexists. split; reflexivity.
  - reflexivity.
  - vm_compute. discriminate.
  - eexists. split; [reflexivity|]. split; reflexivity.
  - reflexivity.
Qed.

(** When resolution finds a directory, [ReadFile] fails in any case: with
    "is a directory", or with the error that stopped the listing of the
    children. *)
Lemma ReadFile_directory_fails (fsys : FS.t) (name : string)
  (e : fileListEntry.t) :
  value (FS.lookup fsys name) = Ok e -> fileListEntry.IsDir e = true ->
  exists err : error,
    value (FS.ReadFile fsys name) = Done (None, Some err).
Proof.
  intros Hlook Hdir. rewrite ReadFile_after_Open.
  unfold FS.Open, bind, value in *.
  destruct (FS.lookup fsys name) as [r l]. cbn [fst] in Hlook. subst r.
  rewrite Hdir.
  destruct (openDir.newOpenDir e (FS.bucket fsys)) as [[dir|err] l'];
    cbn [ret fst]; eexists; reflexivity.
Qed.

(** C10. For a path that resolves to a file of declared size 0, the buffer
    is empty, the one [ReadAt] takes its empty-buffer branch (0 bytes, nil
    error, no [io.EOF], no call to the store), and [ReadFile] returns that
    nil error with no bytes: a successful empty result. *)
Theorem ReadFile_empty_file (fsys : FS.t) (name : string)
  (attr : Attributes) :
  ValidPath name = true -> name <> "." ->
  bk_Attributes (FS.bucket fsys) name = Ok attr ->
  attr_Size attr = 0 ->
  exists f : openFile.t,
    FS.Open fsys name = (Ok (File_openFile f), [EvAttributes name])
    /\ fileListEntry.Size (openFile.self f) = 0
    /\ make_bytes (fileListEntry.Size (openFile.self f)) = Done []
    /\ openFile.ReadAt f [] 0 = ((f, [], (0, None)), [])
    /\ FS.ReadFile fsys name = (Done (None, None), [EvAttributes name]).
Proof.
  intros Hv Hroot Hattr Hsize.
  set (e := fileListEntry.mk
              (mkListObject name (attr_ModTime attr) (attr_Size attr)
                 (attr_MD5 attr) false)).
  exists (openFile.mk e (FS.bucket fsys) 0).
  assert (Hopen : FS.Open fsys name =
                  (Ok (File_openFile (openFile.mk e (FS.bucket fsys) 0)),
                   [EvAttributes name])).
  { unfold FS.Open.
    now rewrite (lookup_attributes_found fsys name attr Hv Hroot Hattr). }
  assert (He : fileListEntry.Size e = 0) by exact Hsize.
  split; [exact Hopen|]. split; [exact He|].
  split; [cbn [openFile.self]; now rewrite He|].
  split; [reflexivity|].
  rewrite ReadFile_after_Open, Hopen. cbn [openFile.self]. rewrite He.
  reflexivity.
Qed.

Lemma ReadFile_empty_file_witness :
  exists f : openFile.t,
    FS.Open demo_fs "empty.txt" =
      (Ok (File_openFile f), [EvAttributes "empty.txt"])
    /\ fileListEntry.Size (openFile.self f) = 0
    /\ make_bytes (fileListEntry.Size (openFile.self f)) = Done []
    /\ openFile.ReadAt f [] 0 = ((f, [], (0, None)), [])
    /\ FS.ReadFile demo_fs "empty.txt" =
         (Done (None, None), [EvAttributes "empty.txt"]).
Proof.
  apply (ReadFile_empty_file demo_fs "empty.txt" (mkAttributes 2 0 [])).
  - reflexivity.
  - discriminate.
  - reflexivity.
  - reflexivity.
Defined.

(** * Further properties *)

(** ** Opening *)

(** X1. A name that is not a valid path is refused before the store is
    touched: [lookup] answers [fs.ErrInvalid], and [Open], [ReadFile] and
    [ReadDir] answer that error wrapped with the operation [open] and the
    name, all without a single call to the store. *)
Theorem invalid_path_never_reaches_store (fsys : FS.t) (name : string) :
  ValidPath name = false ->
  FS.lookup fsys name = (Err fs_ErrInvalid, [])
  /\ FS.Open fsys name = (Err (fs_PathError opOpen name fs_ErrInvalid), [])
  /\ FS.ReadFile fsys name =
       (Done (None, Some (fs_PathError opOpen name fs_ErrInvalid)), [])
  /\ FS.ReadDir fsys name =
       (Done (None, Some (fs_PathError opOpen name fs_ErrInvalid)), []).
Proof.
  intros Hv.
  assert (Hl : FS.lookup fsys name = (Err fs_ErrInvalid, [])).
  { unfold FS.lookup. now rewrite Hv. }
  assert (Ho : FS.Open fsys name =
               (Err (fs_PathError opOpen name fs_ErrInvalid), [])).
  { rewrite Open_after_lookup, Hl. reflexivity. }
  split; [exact Hl|]. split; [exact Ho|]. split.
  - unfold FS.ReadFile. rewrite Ho. reflexivity.
  - unfold FS.ReadDir. rewrite Ho. reflexivity.
Qed.

Lemma invalid_path_never_reaches_store_witness :
  FS.lookup demo_fs "../x" = (Err fs_ErrInvalid, [])
  /\ FS.Open demo_fs "../x" =
       (Err (fs_PathError opOpen "../x" fs_ErrInvalid), [])
  /\ FS.ReadFile demo_fs "../x" =
       (Done (None, Some (fs_PathError opOpen "../x" fs_ErrInvalid)), [])
  /\ FS.ReadDir demo_fs "../x" =
       (Done (None, Some (fs_PathError opOpen "../x" fs_ErrInvalid)), []).
Proof.
  apply (invalid_path_never_reaches_store demo_fs "../x"). reflexivity.
Defined.

(** X2. Every error that [Open] returns is a [*fs.PathError] whose
    operation is [open] and whose path is the name that was asked for. *)
Theorem Open_errors_are_path_errors (fsys : FS.t) (name : string)
  (e : error) :
  value (FS.Open fsys name) = Err e ->
  exists cause : error, e = fs_PathError opOpen name cause.
Proof.
  rewrite Open_after_lookup. unfold value.
  destruct (FS.lookup fsys name) as [[en|err] l]; cbn [fst].
  - destruct (fileListEntry.IsDir en); cbn [fst].
    + destruct (is_EOF _); intros H; inversion H. now eexists.
    + intros H; discriminate H.
  - intros H; inversion H. now eexists.
Qed.

Lemma Open_errors_are_path_errors_witness :
  exists cause : error,
    fs_PathError "open" "dir1/nope.txt" fs_ErrNotExist =
    fs_PathError opOpen "dir1/nope.txt" cause.
Proof.
  apply (Open_errors_are_path_errors demo_fs "dir1/nope.txt").
  reflexivity.
Defined.

(** X3. A valid non-root name under which the store has an object opens as
    a file, whatever the store lists under that name: the handle carries
    the object's size and time, its cursor is 0, and the attributes fetch is
    the only call made. *)
Theorem Open_stored_object_is_file (fsys : FS.t) (name : string)
  (attr : Attributes) :
  ValidPath name = true -> name <> "." ->
  bk_Attributes (FS.bucket fsys) name = Ok attr ->
  FS.Open fsys name =
    (Ok (File_openFile
           (openFile.mk
              (fileListEntry.mk
                 (mkListObject name (attr_ModTime attr) (attr_Size attr)
                    (attr_MD5 attr) false))
              (FS.bucket fsys) 0)),
     [EvAttributes name]).
Proof.
  intros Hv Hroot Hattr. rewrite Open_after_lookup.
  now rewrite (lookup_attributes_found fsys name attr Hv Hroot Hattr).
Qed.

Lemma Open_stored_object_is_file_witness :
  FS.Open demo_fs "foo.txt" =
    (Ok (File_openFile foo_file), [EvAttributes "foo.txt"]).
Proof.
  apply (Open_stored_object_is_file demo_fs "foo.txt" (mkAttributes 1 5 [])).
  - reflexivity.
  - discriminate.
  - reflexivity.
Defined.

(** X4. A directory handle is a snapshot of one listing: when [Open]
    returns one, its entry is the directory entry that resolution found,
    its cursor is 0, the listing under that entry's key ended with
    [io.EOF], and its children are the listed objects, all of them and in
    the order listed. *)
Theorem Open_directory_snapshot (fsys : FS.t) (name : string)
  (d : openDir.t) :
  value (FS.Open fsys name) = Ok (File_openDir d) ->
  let it :=
    bk_List (FS.bucket fsys) "/" (fileListEntry.Path (openDir.self d)) in
  value (FS.lookup fsys name) = Ok (openDir.self d)
  /\ fileListEntry.IsDir (openDir.self d) = true
  /\ openDir.offset d = 0
  /\ final it = io_EOF
  /\ openDir.entries d = List.map fileListEntry.mk (pending it).
Proof.
  rewrite Open_after_lookup. unfold value.
  destruct (FS.lookup fsys name) as [[e|err] l]; cbn [fst];
    [|intros H; discriminate H].
  destruct (fileListEntry.IsDir e) eqn:Hdir; cbn [fst];
    [|intros H; discriminate H].
  destruct (is_EOF _) eqn:Hfin; intros H; inversion H; subst d; clear H.
  cbn [openDir.self openDir.offset openDir.entries].
  repeat split; try assumption. now apply is_EOF_true.
Qed.

Lemma Open_directory_snapshot_witness :
  openDir.entries
    (openDir.mk (fileListEntry.mk (mkListObject "dir1/" 0 0 [] true))
       [fileListEntry.mk (mkListObject "dir1/hoge.txt" 3 4 [] false)] 0) =
  List.map fileListEntry.mk (pending (bk_List demo_bucket "/" "dir1/")).
Proof.
  apply (Open_directory_snapshot demo_fs "dir1"
           (openDir.mk (fileListEntry.mk (mkListObject "dir1/" 0 0 [] true))
              [fileListEntry.mk (mkListObject "dir1/hoge.txt" 3 4 [] false)]
              0)).
  reflexivity.
Defined.

(** X5. An error while the children are listed ends [Open] without a
    handle: when resolution finds a directory and the listing under its key
    breaks with an error other than [io.EOF], [Open] returns that error,
    wrapped, after having asked for every object that came before it. *)
Theorem Open_listing_error_aborts (fsys : FS.t) (name : string)
  (e : fileListEntry.t) :
  let it := bk_List (FS.bucket fsys) "/" (fileListEntry.Path e) in
  value (FS.lookup fsys name) = Ok e ->
  fileListEntry.IsDir e = true ->
  final it <> io_EOF ->
  FS.Open fsys name =
    (Err (fs_PathError opOpen name (final it)),
     calls (FS.lookup fsys name)
       ++ EvList "/" (fileListEntry.Path e)
            :: repeat EvNext (S (List.length (pending it)))).
Proof.
  intros it Hlook Hdir Hfin. rewrite Open_after_lookup.
  unfold value, calls in *.
  destruct (FS.lookup fsys name) as [r l]. cbn [fst snd] in *. subst r.
  rewrite Hdir. fold it. now rewrite (is_EOF_false _ Hfin).
Qed.

Lemma Open_listing_error_aborts_witness :
  FS.Open broken_fs "dir1" =
    (Err (fs_PathError opOpen "dir1" err_network),
     calls (FS.lookup broken_fs "dir1")
       ++ [EvList "/" "dir1/"; EvNext; EvNext]).
Proof.
  apply (Open_listing_error_aborts broken_fs "dir1"
           (fileListEntry.mk (mkListObject "dir1/" 0 0 [] true))).
  - reflexivity.
  - reflexivity.
  - discriminate.
Defined.

(** ** Directory handles *)

Lemma openDir_set_offset_same (d : openDir.t) :
  openDir.set_offset d (openDir.offset d) = d.
Proof. now destruct d. Qed.

Lemma page_size_bounds (n k : Z) :
  0 <= k ->
  0 <= page_size n k <= k
  /\ (0 < k -> 0 < page_size n k)
  /\ (0 < n -> page_size n k <= n)
  /\ (n <= 0 -> page_size n k = k).
Proof.
  intros Hk. unfold page_size. rewrite Z.gtb_ltb, Z.gtb_ltb.
  destruct (Z.ltb_spec 0 n), (Z.ltb_spec n k); simpl; lia.
Qed.

(** [ReadDir] on a handle whose cursor lies within its children, in one
    equation. *)
Lemma ReadDir_on_ok (d : openDir.t) (n : Z) :
  dir_cursor_ok d ->
  let k := len (openDir.entries d) - openDir.offset d in
  let c := page_size n k in
  openDir.ReadDir d n =
    Done (openDir.set_offset d (openDir.offset d + c),
          (if c =? 0 then None
           else Some (firstn (Z.to_nat c)
                        (skipn (Z.to_nat (openDir.offset d))
                           (openDir.entries d))),
           if (c =? 0) && negb (n <=? 0) then Some io_EOF else None)).
Proof.
  intros [Hcur Hlen] k c.
  destruct (page_size_bounds n k ltac:(unfold k; lia)) as (Hc & Hpos & _).
  fold c in Hc, Hpos.
  destruct (Z.eq_dec k 0) as [Hk|Hk].
  - rewrite (ReadDir_exhausted d n Hk).
    assert (c = 0) by lia. rewrite H. rewrite Z.add_0_r.
    rewrite openDir_set_offset_same. cbn [Z.eqb andb].
    now destruct (n <=? 0).
  - rewrite (ReadDir_next_page d n Hcur Hlen ltac:(unfold k in *; lia)).
    fold k. fold (page_size n k). fold c.
    destruct (Z.eqb_spec c 0) as [E|_]; [lia | reflexivity].
Qed.

(** X6. [ReadDir] of the file system on a name that resolves to a
    directory returns the objects the store lists under that directory's
    key, all of them and in listing order, with no error; nothing and no
    error when the listing is empty.  The store is asked for the listing
    once, object by object, after the resolution. *)
Theorem FS_ReadDir_lists_children (fsys : FS.t) (name : string)
  (e : fileListEntry.t) :
  let it := bk_List (FS.bucket fsys) "/" (fileListEntry.Path e) in
  value (FS.lookup fsys name) = Ok e ->
  fileListEntry.IsDir e = true ->
  final it = io_EOF ->
  len (pending it) < 2 ^ 63 ->
  FS.ReadDir fsys name =
    (Done (match pending it with
           | [] => None
           | _ :: _ => Some (List.map fileListEntry.mk (pending it))
           end, None),
     calls (FS.lookup fsys name)
       ++ EvList "/" (fileListEntry.Path e)
            :: repeat EvNext (S (List.length (pending it)))).
Proof.
  intros it Hlook Hdir Hfin Hlen.
  unfold FS.ReadDir. rewrite Open_after_lookup.
  unfold value, calls in *.
  destruct (FS.lookup fsys name) as [r l]. cbn [fst snd] in *. subst r.
  rewrite Hdir. fold it. rewrite Hfin. cbn [is_EOF bind].
  set (d := openDir.mk e (List.map fileListEntry.mk (pending it)) 0).
  assert (Hmap : len (openDir.entries d) = len (pending it)).
  { unfold d, len. cbn [openDir.entries]. now rewrite length_map. }
  assert (Hok : dir_cursor_ok d).
  { unfold dir_cursor_ok. rewrite Hmap. unfold len. cbn [openDir.offset d].
    unfold len in Hlen. lia. }
  rewrite (ReadDir_on_ok d (-1) Hok).
  change (openDir.offset d) with 0. rewrite Z.sub_0_r.
  change (page_size (-1) (len (openDir.entries d)))
    with (len (openDir.entries d)).
  cbn [Z.to_nat skipn ret]. rewrite app_nil_r.
  unfold len at 1 2. rewrite Nat2Z.id, firstn_all.
  cbn [openDir.entries d].
  destruct (pending it) as [|o rest]; reflexivity.
Qed.

Lemma FS_ReadDir_lists_children_witness :
  FS.ReadDir demo_fs "dir1" =
    (Done (Some [fileListEntry.mk (mkListObject "dir1/hoge.txt" 3 4 [] false)],
           None),
     calls (FS.lookup demo_fs "dir1") ++ [EvList "/" "dir1/"; EvNext; EvNext]).
Proof.
  apply (FS_ReadDir_lists_children demo_fs "dir1"
           (fileListEntry.mk (mkListObject "dir1/" 0 0 [] true))).
  - reflexivity.
  - reflexivity.
  - reflexivity.
  - evaluate.
Defined.

(** X7. [ReadDir] of the file system on a name that resolves to a file
    fails with "not a directory" under the operation [read] and the name,
    and makes no call to the store beyond the resolution. *)
Theorem FS_ReadDir_of_file (fsys : FS.t) (name : string)
  (e : fileListEntry.t) :
  value (FS.lookup fsys name) = Ok e ->
  fileListEntry.IsDir e = false ->
  FS.ReadDir fsys name =
    (Done (None, Some (fs_PathError opRead name
                         (errors_New "not a directory"))),
     calls (FS.lookup fsys name)).
Proof.
  intros Hlook Hdir. unfold FS.ReadDir. rewrite Open_after_lookup.
  unfold value, calls in *.
  destruct (FS.lookup fsys name) as [r l]. cbn [fst snd] in *. subst r.
  rewrite Hdir. cbn [bind ret]. now rewrite app_nil_r.
Qed.

Lemma FS_ReadDir_of_file_witness :
  FS.ReadDir demo_fs "foo.txt" =
    (Done (None, Some (fs_PathError opRead "foo.txt"
                         (errors_New "not a directory"))),
     calls (FS.lookup demo_fs "foo.txt")).
Proof.
  apply (FS_ReadDir_of_file demo_fs "foo.txt" foo_entry); reflexivity.
Defined.

(** X8. On a directory handle whose cursor lies within its children,
    [ReadDir] never panics and keeps the entry and the children; the cursor
    moves forward by exactly the number of entries returned and stays
    within the children; with n > 0 at most n entries are returned; and the
    only error is [io.EOF], which comes with no entries. *)
Theorem ReadDir_keeps_handle (d : openDir.t) (n : Z) :
  dir_cursor_ok d ->
  exists (d' : openDir.t) (es : option (list fileListEntry.t))
         (err : option error),
    let page := match es with Some l => l | None => [] end in
    openDir.ReadDir d n = Done (d', (es, err))
    /\ openDir.self d' = openDir.self d
    /\ openDir.entries d' = openDir.entries d
    /\ openDir.offset d' = openDir.offset d + len page
    /\ dir_cursor_ok d'
    /\ (0 < n -> len page <= n)
    /\ (forall e : error, err = Some e -> e = io_EOF /\ es = None).
Proof.
  intros Hok. pose proof Hok as [Hcur Hlen].
  rewrite (ReadDir_on_ok d n Hok).
  set (k := len (openDir.entries d) - openDir.offset d).
  set (c := page_size n k).
  destruct (page_size_bounds n k ltac:(unfold k; lia)) as (Hc & _ & Hn & _).
  fold c in Hc, Hn.
  do 3 eexists. cbv zeta. split; [reflexivity|].
  cbn [openDir.set_offset openDir.self openDir.entries openDir.offset].
  assert (Hpage :
            len (match (if c =? 0 then None
                        else Some (firstn (Z.to_nat c)
                                     (skipn (Z.to_nat (openDir.offset d))
                                        (openDir.entries d))))
                 with Some l => l | None => [] end) = c).
  { destruct (Z.eqb_spec c 0) as [E|E]; [now rewrite E|].
    unfold len. rewrite length_firstn, length_skipn.
    unfold k, len in *. lia. }
  rewrite Hpage.
  split; [reflexivity|]. split; [reflexivity|]. split; [reflexivity|].
  split; [|split].
  - unfold dir_cursor_ok.
    cbn [openDir.set_offset openDir.offset openDir.entries].
    unfold k in *. lia.
  - exact Hn.
  - intros e He. destruct (c =? 0); [|discriminate He].
    split; [|reflexivity]. cbn [andb] in He.
    destruct (n <=? 0); now inversion He.
Qed.

Lemma ReadDir_keeps_handle_witness :
  exists (d' : openDir.t) (es : option (list fileListEntry.t))
         (err : option error),
    let page := match es with Some l => l | None => [] end in
    openDir.ReadDir demo_dir 1 = Done (d', (es, err))
    /\ openDir.self d' = openDir.self demo_dir
    /\ openDir.entries d' = openDir.entries demo_dir
    /\ openDir.offset d' = openDir.offset demo_dir + len page
    /\ dir_cursor_ok d'
    /\ (0 < 1 -> len page <= 1)
    /\ (forall e : error, err = Some e -> e = io_EOF /\ es = None).
Proof.
  apply (ReadDir_keeps_handle demo_dir 1). evaluate.
Defined.

(** Paging with enough fuel. *)
Lemma read_pages_enough (n : Z) (fuel : nat) (d : openDir.t) :
  0 < n -> dir_cursor_ok d ->
  (Z.to_nat (len (openDir.entries d) - openDir.offset d) < fuel)%nat ->
  read_pages fuel d n =
    Some (skipn (Z.to_nat (openDir.offset d)) (openDir.entries d),
          openDir.set_offset d (len (openDir.entries d)),
          Some io_EOF).
Proof.
  intros Hn. revert d.
  induction fuel as [|fuel IH]; intros d Hok Hfuel; [lia|].
  pose proof Hok as [Hcur Hlen].
  cbn [read_pages]. rewrite (ReadDir_on_ok d n Hok).
  set (k := len (openDir.entries d) - openDir.offset d) in *.
  set (c := page_size n k).
  destruct (page_size_bounds n k ltac:(unfold k; lia)) as (Hc & Hpos & _).
  fold c in Hc, Hpos.
  destruct (Z.leb_spec n 0) as [E|_]; [lia|]. cbn [negb].
  destruct (Z.eqb_spec c 0) as [Hc0|Hc0].
  - assert (Hk : k = 0) by lia.
    assert (Hskip : skipn (Z.to_nat (openDir.offset d)) (openDir.entries d)
                    = []).
    { apply skipn_all2. unfold k in *. unfold len in *. lia. }
    assert (Hoff : len (openDir.entries d) = openDir.offset d)
      by (unfold k in Hk; lia).
    cbn [andb]. rewrite Hskip, Hc0, Z.add_0_r, Hoff. reflexivity.
  - cbn [andb].
    set (d1 := openDir.set_offset d (openDir.offset d + c)).
    assert (Hok1 : dir_cursor_ok d1).
    { unfold dir_cursor_ok, d1.
      cbn [openDir.set_offset openDir.offset openDir.entries].
      unfold k in *. lia. }
    rewrite (IH d1 Hok1).
    2:{ unfold d1. cbn [openDir.set_offset openDir.offset openDir.entries].
        fold k in Hfuel. unfold k in *. lia. }
    unfold d1. cbn [openDir.set_offset openDir.offset openDir.entries
                    openDir.self].
    replace (Z.to_nat (openDir.offset d + c))
      with (Z.to_nat c + Z.to_nat (openDir.offset d))%nat by lia.
    rewrite <- skipn_skipn, firstn_skipn. reflexivity.
Qed.

(** X9. Paging through a directory gives every child once: on a handle
    whose cursor lies within its children, calling [ReadDir(n)] with a
    fixed n > 0 until it reports an error returns, page after page, exactly
    the children not yet returned, in order; the loop ends with [io.EOF],
    after at most one call more than there are children left, and leaves
    the cursor at the end. *)
Theorem read_pages_returns_all (d : openDir.t) (n : Z) :
  0 < n -> dir_cursor_ok d ->
  read_pages (S (Z.to_nat (len (openDir.entries d) - openDir.offset d))) d n =
    Some (skipn (Z.to_nat (openDir.offset d)) (openDir.entries d),
          openDir.set_offset d (len (openDir.entries d)),
          Some io_EOF).
Proof.
  intros Hn Hok. apply read_pages_enough; [exact Hn | exact Hok | lia].
Qed.

Lemma read_pages_returns_all_witness :
  read_pages 3 demo_dir 1 =
    Some ([dir_entry "a"; dir_entry "b"], openDir.set_offset demo_dir 2,
          Some io_EOF).
Proof.
  apply (read_pages_returns_all demo_dir 1); evaluate.
Defined.

(** X10. After a [ReadDir(n)] with n <= 0 the handle is exhausted: a
    further [ReadDir(m)] returns nothing, with no error when m <= 0 and
    with [io.EOF] when m > 0, and leaves the handle as it is. *)
Theorem ReadDir_all_then_empty (d : openDir.t) (n m : Z) :
  dir_cursor_ok d -> n <= 0 ->
  exists (d' : openDir.t)
         (res : option (list fileListEntry.t) * option error),
    openDir.ReadDir d n = Done (d', res)
    /\ openDir.ReadDir d' m =
         Done (d', (None, if m <=? 0 then None else Some io_EOF)).
Proof.
  intros Hok Hn. pose proof Hok as [Hcur Hlen].
  rewrite (ReadDir_on_ok d n Hok).
  destruct (page_size_bounds n
              (len (openDir.entries d) - openDir.offset d) ltac:(lia))
    as (_ & _ & _ & Hall).
  rewrite (Hall Hn). do 2 eexists. split; [reflexivity|].
  apply ReadDir_exhausted.
  cbn [openDir.set_offset openDir.offset openDir.entries]. lia.
Qed.

Lemma ReadDir_all_then_empty_witness :
  exists (d' : openDir.t)
         (res : option (list fileListEntry.t) * option error),
    openDir.ReadDir demo_dir (-1) = Done (d', res)
    /\ openDir.ReadDir d' (-1) =
         Done (d', (None, if -1 <=? 0 then None else Some io_EOF)).
Proof.
  apply (ReadDir_all_then_empty demo_dir (-1) (-1)); evaluate.
Defined.

(** ** File handles *)

Lemma openFile_set_offset_same (f : openFile.t) :
  openFile.set_offset f (openFile.offset f) = f.
Proof. now destruct f. Qed.

Lemma geb_false_lt (a b : Z) : a < b -> (a >=? b) = false.
Proof. intros H. rewrite Z.geb_leb. apply Z.leb_gt. exact H. Qed.

Lemma geb_true_le (a b : Z) : b <= a -> (a >=? b) = true.
Proof. intros H. rewrite Z.geb_leb. apply Z.leb_le. exact H. Qed.

(** [Read] and [ReadAt] once the store has handed out a reader. *)
Lemma Read_with_reader (f : openFile.t) (b : list byte) (r : Reader) :
  b <> [] ->
  openFile.offset f < fileListEntry.Size (openFile.self f) ->
  bk_NewRangeReader (openFile.bucket f)
    (fileListEntry.Path (openFile.self f)) (openFile.offset f) (len b) =
    Ok r ->
  value (openFile.Read f b) =
    let '(b', n, err) := value (Reader_Read r b) in
    (openFile.set_offset f (add64 (openFile.offset f) n), b',
     (n, match err with Some e => Some e | None => rd_close r end)).
Proof.
  intros Hb Hcur Hr. unfold openFile.Read.
  rewrite (len_eqb_nonempty b Hb), (geb_false_lt _ _ Hcur).
  unfold bind, Bucket_NewRangeReader. rewrite Hr.
  rewrite Reader_Read_eta.
  destruct (value (Reader_Read r b)) as [[b' n] err].
  destruct err; reflexivity.
Qed.

Lemma ReadAt_with_reader (f : openFile.t) (b : list byte) (off : Z)
  (r : Reader) :
  b <> [] ->
  off < fileListEntry.Size (openFile.self f) ->
  bk_NewRangeReader (openFile.bucket f)
    (fileListEntry.Path (openFile.self f)) off (len b) = Ok r ->
  openFile.ReadAt f b off =
    let '(b', n, err) := value (Reader_Read r b) in
    ((f, b',
      (n, if add64 off n =? fileListEntry.Size (openFile.self f)
          then Some io_EOF
          else match err with Some e => Some e | None => rd_close r end)),
     EvNewRangeReader (fileListEntry.Path (openFile.self f)) off (len b)
       :: EvRead (len b)
       :: (if add64 off n =? fileListEntry.Size (openFile.self f) then []
           else match err with Some _ => [] | None => [EvClose] end)).
Proof.
  intros Hb Hcur Hr. unfold openFile.ReadAt.
  rewrite (len_eqb_nonempty b Hb), (geb_false_lt _ _ Hcur).
  unfold bind, Bucket_NewRangeReader. rewrite Hr.
  rewrite Reader_Read_eta.
  destruct (value (Reader_Read r b)) as [[b' n] err].
  unfold value. cbn [fst app].
  destruct (add64 off n =? _); [reflexivity|].
  destruct err; reflexivity.
Qed.

(** X11. Seeking to the end and reading: on a file of size S >= 0,
    [Seek(0, io.SeekEnd)] succeeds with position S, and a [Read] into a
    non-empty buffer right after it returns 0 bytes and [io.EOF] without
    calling the store or moving the cursor. *)
Theorem Seek_end_then_Read_EOF (f : openFile.t) (b : list byte) :
  let size := fileListEntry.Size (openFile.self f) in
  let f1 := fst (openFile.Seek f 0 openFile.SeekEnd) in
  int64_ok size -> 0 <= size ->
  0 <= openFile.offset f < 2 ^ 63 ->
  b <> [] ->
  openFile.Seek f 0 openFile.SeekEnd =
    (openFile.set_offset f size, (size, None))
  /\ openFile.Read f1 b = ((f1, b, (0, Some io_EOF)), []).
Proof.
  intros size f1 Hsize Hnn Hcur Hb.
  assert (Hseek : openFile.Seek f 0 openFile.SeekEnd =
                  (openFile.set_offset f size, (size, None))).
  { rewrite (Seek_spec f 0 openFile.SeekEnd ltac:(evaluate) Hsize Hcur).
    change (seek_position f 0 openFile.SeekEnd) with (Some (0 + size)).
    cbv beta iota. fold size. rewrite Z.add_0_l.
    replace ((0 <=? size) && (size <=? size)) with true; [reflexivity|].
    symmetry. apply andb_true_iff. split; apply Z.leb_le; lia. }
  split; [exact Hseek|].
  unfold f1. rewrite Hseek. cbn [fst]. unfold openFile.Read.
  rewrite (len_eqb_nonempty b Hb).
  cbn [openFile.set_offset openFile.offset openFile.self]. fold size.
  now rewrite (geb_true_le size size ltac:(lia)).
Qed.

Lemma Seek_end_then_Read_EOF_witness :
  openFile.Seek foo_file 0 openFile.SeekEnd =
    (openFile.set_offset foo_file 5, (5, None))
  /\ openFile.Read (fst (openFile.Seek foo_file 0 openFile.SeekEnd))
       (repeat x00 3) =
     ((fst (openFile.Seek foo_file 0 openFile.SeekEnd), repeat x00 3,
       (0, Some io_EOF)), []).
Proof.
  apply (Seek_end_then_Read_EOF foo_file (repeat x00 3)).
  - evaluate.
  - evaluate.
  - evaluate.
  - discriminate.
Defined.

(** X12. Seeks compose: after a seek from the start to a position p in
    [0, S], a seek by q from the current position lands where a seek from
    the start to p + q lands, whenever p + q is in [0, S]; with q = 0 it
    reports p and changes nothing. *)
Theorem Seek_relative_after_absolute (f : openFile.t) (p q : Z) :
  let size := fileListEntry.Size (openFile.self f) in
  let f1 := fst (openFile.Seek f p openFile.SeekStart) in
  int64_ok size ->
  0 <= openFile.offset f < 2 ^ 63 ->
  0 <= p <= size -> 0 <= p + q <= size ->
  openFile.offset f1 = p
  /\ openFile.Seek f1 q openFile.SeekCurrent =
       openFile.Seek f (p + q) openFile.SeekStart
  /\ openFile.Seek f1 q openFile.SeekCurrent =
       (openFile.set_offset f (p + q), (p + q, None))
  /\ openFile.Seek f1 0 openFile.SeekCurrent = (f1, (p, None)).
Proof.
  intros size f1 Hsize Hcur Hp Hpq.
  assert (Hin : forall x : Z, 0 <= x <= size ->
                  (0 <=? x) && (x <=? size) = true).
  { intros x Hx. apply andb_true_iff. split; apply Z.leb_le; lia. }
  assert (Habs : forall x : Z, 0 <= x <= size ->
                   openFile.Seek f x openFile.SeekStart =
                   (openFile.set_offset f x, (x, None))).
  { intros x Hx.
    rewrite (Seek_spec f x openFile.SeekStart
               ltac:(unfold int64_ok in *; lia) Hsize Hcur).
    change (seek_position f x openFile.SeekStart) with (Some x).
    cbv beta iota. fold size. now rewrite (Hin x Hx). }
  assert (Hf1 : f1 = openFile.set_offset f p).
  { unfold f1. now rewrite (Habs p Hp). }
  assert (Hrel : forall y : Z, 0 <= p + y <= size ->
                   openFile.Seek f1 y openFile.SeekCurrent =
                   (openFile.set_offset f (p + y), (p + y, None))).
  { intros y Hy. rewrite Hf1.
    rewrite (Seek_spec (openFile.set_offset f p) y openFile.SeekCurrent).
    - change (seek_position (openFile.set_offset f p) y openFile.SeekCurrent)
        with (Some (y + p)).
      cbv beta iota.
      cbn [openFile.set_offset openFile.self]. fold size.
      rewrite (Hin (y + p) ltac:(lia)).
      now replace (y + p) with (p + y) by lia.
    - unfold int64_ok in *. lia.
    - exact Hsize.
    - cbn [openFile.set_offset openFile.offset].
      unfold int64_ok in *. lia. }
  split; [now rewrite Hf1|]. split; [|split].
  - now rewrite (Hrel q Hpq), (Habs (p + q) Hpq).
  - exact (Hrel q Hpq).
  - rewrite (Hrel 0 ltac:(lia)), Z.add_0_r. now rewrite Hf1.
Qed.

Lemma Seek_relative_after_absolute_witness :
  openFile.offset (fst (openFile.Seek foo_file 4 openFile.SeekStart)) = 4
  /\ openFile.Seek (fst (openFile.Seek foo_file 4 openFile.SeekStart)) (-3)
       openFile.SeekCurrent =
     openFile.Seek foo_file (4 + -3) openFile.SeekStart
  /\ openFile.Seek (fst (openFile.Seek foo_file 4 openFile.SeekStart)) (-3)
       openFile.SeekCurrent =
     (openFile.set_offset foo_file (4 + -3), (4 + -3, None))
  /\ openFile.Seek (fst (openFile.Seek foo_file 4 openFile.SeekStart)) 0
       openFile.SeekCurrent =
     (fst (openFile.Seek foo_file 4 openFile.SeekStart), (4, None)).
Proof.
  apply (Seek_relative_after_absolute foo_file 4 (-3)); evaluate.
Defined.

(** X13. [ReadAt] at the cursor sees what [Read] sees: for any handle and
    buffer, [ReadAt(b, cursor)] stores the same bytes and returns the same
    count as [Read(b)]; its error is that of [Read], or [io.EOF] in its
    place; and unlike [Read] it leaves the handle as it is. *)
Theorem ReadAt_at_cursor_matches_Read (f : openFile.t) (b : list byte) :
  let '(f1, b1, (n1, e1)) := value (openFile.Read f b) in
  let '(f2, b2, (n2, e2)) :=
    value (openFile.ReadAt f b (openFile.offset f)) in
  b2 = b1 /\ n2 = n1 /\ (e2 = e1 \/ e2 = Some io_EOF) /\ f2 = f.
Proof.
  unfold openFile.Read, openFile.ReadAt.
  destruct (len b =? 0); [cbn; auto|].
  destruct (openFile.offset f >=? _); [cbn; auto|].
  unfold bind, Bucket_NewRangeReader.
  destruct (bk_NewRangeReader _ _ _ _) as [r|e]; [|cbn; auto].
  rewrite Reader_Read_eta.
  destruct (value (Reader_Read r b)) as [[b' n] err].
  destruct (add64 (openFile.offset f) n =? _); destruct err; cbn; auto.
Qed.

(** ** Whole objects *)

Lemma skipn_repeat {A : Type} (x : A) (n m : nat) :
  skipn n (repeat x m) = repeat x (m - n).
Proof.
  revert m. induction n as [|n IH]; intros m.
  - now rewrite Nat.sub_0_r.
  - destruct m as [|m]; [reflexivity|]. simpl. apply IH.
Qed.

(** One read from a store that holds the object: the bytes from the
    offset, as many as fit the buffer. *)
Lemma serves_Reader_Read (bk : Bucket) (key : string) (data b : list byte)
  (off : Z) :
  serves bk key data -> 0 <= off < len data -> b <> [] ->
  let chunk := firstn (List.length b) (skipn (Z.to_nat off) data) in
  exists r : Reader,
    bk_NewRangeReader bk key off (len b) = Ok r
    /\ rd_close r = None
    /\ value (Reader_Read r b) =
         (chunk ++ skipn (List.length chunk) b, len chunk, None).
Proof.
  intros Hs Hoff Hb chunk.
  assert (Hlen : 0 < len b).
  { pose proof (len_nonneg b). pose proof (len_nil_iff b) as [Hz _].
    destruct (Z.eq_dec (len b) 0) as [E|E]; [now apply Hz in E | lia]. }
  destruct (Hs off (len b) Hoff Hlen) as (r & Hr & Hbytes & Hclose).
  exists r. split; [exact Hr|]. split; [exact Hclose|].
  unfold Reader_Read, value. rewrite Hbytes. cbn [fst].
  replace (Z.to_nat (len b)) with (List.length b) by (unfold len; lia).
  rewrite firstn_firstn, Nat.min_id. reflexivity.
Qed.

(** X14. [ReadFile] returns the whole object: for a valid non-root name
    whose attributes declare the size of a non-empty object that the store
    holds, the size being within the allocation limit of the runtime,
    [ReadFile] returns exactly the bytes of the object and no error, after
    one attributes fetch, one ranged reader at offset 0 for the declared
    size and one read. *)
Theorem ReadFile_whole_object (fsys : FS.t) (name : string)
  (attr : Attributes) (data : list byte) :
  ValidPath name = true -> name <> "." ->
  bk_Attributes (FS.bucket fsys) name = Ok attr ->
  attr_Size attr = len data ->
  data <> [] -> len data < 2 ^ 63 -> len data <= maxAlloc ->
  serves (FS.bucket fsys) name data ->
  FS.ReadFile fsys name =
    (Done (Some data, None),
     [EvAttributes name; EvNewRangeReader name 0 (len data);
      EvRead (len data)]).
Proof.
  intros Hv Hroot Hattr Hsize Hdata Hlen Hfit Hs.
  pose proof (len_nonneg data) as Hnn.
  assert (Hpos : 0 < len data).
  { destruct (Z.eq_dec (len data) 0) as [E|E]; [|lia].
    now apply len_nil_iff in E. }
  rewrite ReadFile_after_Open.
  rewrite Open_after_lookup.
  rewrite (lookup_attributes_found fsys name attr Hv Hroot Hattr).
  cbn [fileListEntry.IsDir fileListEntry.obj IsDir openFile.self
       fileListEntry.Size Size].
  rewrite Hsize. rewrite (make_bytes_ok (len data) ltac:(lia)).
  set (b := repeat x00 (Z.to_nat (len data))).
  assert (Hb_len : List.length b = List.length data).
  { unfold b, len. now rewrite repeat_length, Nat2Z.id. }
  assert (Hb_len' : len b = len data) by (unfold len; now rewrite Hb_len).
  assert (Hb : b <> []).
  { intros E. apply len_nil_iff in E. lia. }
  destruct (serves_Reader_Read (FS.bucket fsys) name data b 0 Hs
              ltac:(lia) Hb) as (r & Hr & Hclose & Hread).
  cbn [Z.to_nat skipn] in Hread.
  rewrite Hb_len, firstn_all in Hread.
  rewrite <- Hb_len, skipn_all, app_nil_r in Hread.
  set (f := openFile.mk _ _ 0).
  rewrite (ReadAt_with_reader f b 0 r Hb).
  - rewrite Hread. unfold f.
    cbn [openFile.self fileListEntry.Size fileListEntry.obj Size
         fileListEntry.Path Key].
    unfold add64. rewrite Z.add_0_l.
    rewrite wrap64_id by (unfold int64_ok; lia).
    rewrite Z.eqb_refl, Hb_len'. reflexivity.
  - unfold f. cbn [openFile.self fileListEntry.Size fileListEntry.obj Size].
    lia.
  - unfold f. cbn [openFile.self openFile.bucket fileListEntry.Path
                   fileListEntry.obj Key].
    exact Hr.
Qed.

(** The demonstration store holds [hello] under [foo.txt]. *)
Lemma demo_serves_foo : serves demo_bucket "foo.txt" foo_bytes.
Proof.
  intros off n Hoff Hn. exists (demo_reader foo_bytes off n).
  split; [|split; [|reflexivity]].
  - cbn [demo_bucket bk_NewRangeReader]. unfold demo_NewRangeReader.
    cbn [String.eqb Ascii.eqb Bool.eqb].
    destruct (Z.ltb_spec off 0) as [E|_]; [lia | reflexivity].
  - cbn [demo_reader rd_bytes]. rewrite Z.min_id.
    destruct (Z.to_nat n) as [|k] eqn:En; [lia|].
    destruct (skipn (Z.to_nat off) foo_bytes) as [|x tail] eqn:Et.
    + apply (f_equal (@List.length byte)) in Et.
      rewrite length_skipn in Et. change (len foo_bytes) with 5 in Hoff.
      change (List.length foo_bytes) with 5%nat in Et.
      change (@List.length byte []) with 0%nat in Et. lia.
    + reflexivity.
Qed.

Lemma ReadFile_whole_object_witness :
  FS.ReadFile demo_fs "foo.txt" =
    (Done (Some foo_bytes, None),
     [EvAttributes "foo.txt"; EvNewRangeReader "foo.txt" 0 (len foo_bytes);
      EvRead (len foo_bytes)]).
Proof.
  apply (ReadFile_whole_object demo_fs "foo.txt" (mkAttributes 1 5 [])
           foo_bytes).
  - reflexivity.
  - discriminate.
  - reflexivity.
  - reflexivity.
  - discriminate.
  - evaluate.
  - evaluate.
  - exact demo_serves_foo.
Defined.

(** X15. A first read that comes up short: for a valid non-root name whose
    attributes declare S bytes, S within the allocation limit of the
    runtime, when the one read delivers fewer than S bytes, [ReadFile]
    returns no bytes together with the error of that read or, after a
    clean read, of the close, so no bytes and no error at all when both
    are clean; only when that error is [io.EOF] does it return a buffer as
    a success, S bytes long and starting with the bytes delivered. *)
Theorem ReadFile_short_read (fsys : FS.t) (name : string)
  (attr : Attributes) (r : Reader) (data : list byte)
  (err : option error) :
  let size := attr_Size attr in
  let final :=
    match err with Some e => Some e | None => rd_close r end in
  ValidPath name = true -> name <> "." ->
  bk_Attributes (FS.bucket fsys) name = Ok attr ->
  int64_ok size -> size <= maxAlloc ->
  bk_NewRangeReader (FS.bucket fsys) name 0 size = Ok r ->
  rd_bytes r size = (data, err) ->
  len data < size ->
  (final <> Some io_EOF ->
   value (FS.ReadFile fsys name) = Done (None, final))
  /\
  (final = Some io_EOF ->
   exists b' : list byte,
     value (FS.ReadFile fsys name) = Done (Some b', None)
     /\ len b' = size
     /\ firstn (List.length data) b' = data).
Proof.
  intros size final Hv Hroot Hattr Hsize Hfit Hr Hbytes Hshort.
  pose proof (len_nonneg data) as Hnn.
  rewrite ReadFile_after_Open, Open_after_lookup.
  rewrite (lookup_attributes_found fsys name attr Hv Hroot Hattr).
  cbn [fileListEntry.IsDir fileListEntry.obj IsDir openFile.self
       fileListEntry.Size Size].
  fold size. rewrite (make_bytes_ok size ltac:(lia)).
  set (b := repeat x00 (Z.to_nat size)).
  assert (Hb_len : len b = size).
  { unfold b, len. rewrite repeat_length. lia. }
  assert (Hb : b <> []).
  { intros E. apply len_nil_iff in E. lia. }
  set (f := openFile.mk _ _ 0).
  set (b1 := data ++ skipn (List.length data) b).
  assert (Hread : value (Reader_Read r b) = (b1, len data, err)).
  { unfold Reader_Read, value. rewrite Hb_len, Hbytes. cbn [fst].
    rewrite firstn_all2; [reflexivity|].
    unfold b. rewrite repeat_length. unfold len in *. lia. }
  assert (Hb1 : len b1 = size /\ firstn (List.length data) b1 = data).
  { split.
    - apply Reader_Read_count in Hread. destruct Hread as [_ H].
      now rewrite H.
    - unfold b1. rewrite firstn_app, firstn_all, Nat.sub_diag.
      simpl. apply app_nil_r. }
  rewrite (ReadAt_with_reader f b 0 r Hb).
  - rewrite Hread. unfold f, value.
    cbn [openFile.self fileListEntry.Size fileListEntry.obj Size fst].
    fold size. unfold add64. rewrite Z.add_0_l.
    rewrite wrap64_id by (unfold int64_ok in *; lia).
    destruct (Z.eqb_spec (len data) size) as [E|_]; [lia|].
    fold final. split.
    + intros Hne. destruct final as [e0|]; [|reflexivity].
      destruct e0; try reflexivity. now contradiction Hne.
    + intros Hfin. rewrite Hfin. exists b1. cbn [not_EOF is_EOF negb].
      split; [reflexivity | exact Hb1].
  - unfold f. cbn [openFile.self fileListEntry.Size fileListEntry.obj Size].
    fold size. lia.
  - unfold f. cbn [openFile.self openFile.bucket fileListEntry.Path
                   fileListEntry.obj Key].
    rewrite Hb_len. exact Hr.
Qed.

Lemma ReadFile_short_read_witness :
  value (FS.ReadFile short_fs "foo.txt") = Done (None, None).
Proof.
  apply (proj1 (ReadFile_short_read short_fs "foo.txt" (mkAttributes 1 5 [])
                  (mkReader (fun _ => (bytes_of_string "he", None)) None)
                  (bytes_of_string "he") None
                  ltac:(reflexivity) ltac:(discriminate) ltac:(reflexivity)
                  ltac:(evaluate) ltac:(evaluate) ltac:(reflexivity)
                  ltac:(reflexivity) ltac:(evaluate))).
  discriminate.
Defined.

Lemma firstn_min_length {A : Type} (n : nat) (l : list A) :
  firstn n l = firstn (Nat.min n (List.length l)) l.
Proof.
  destruct (Nat.le_gt_cases n (List.length l)) as [H|H].
  - now rewrite Nat.min_l.
  - rewrite Nat.min_r by lia. rewrite firstn_all. apply firstn_all2. lia.
Qed.

Lemma firstn_length_app {A : Type} (l r : list A) :
  firstn (List.length l) (l ++ r) = l.
Proof.
  rewrite firstn_app, firstn_all, Nat.sub_diag. simpl. apply app_nil_r.
Qed.

(** Sequential reading with enough fuel. *)
Lemma read_to_end_enough (data : list byte) (m fuel : nat)
  (f : openFile.t) :
  serves (openFile.bucket f) (fileListEntry.Path (openFile.self f)) data ->
  fileListEntry.Size (openFile.self f) = len data ->
  len data < 2 ^ 63 -> (0 < m)%nat ->
  0 <= openFile.offset f <= len data ->
  (Z.to_nat (len data - openFile.offset f) < fuel)%nat ->
  read_to_end fuel f m =
    (skipn (Z.to_nat (openFile.offset f)) data,
     openFile.set_offset f (len data), Some io_EOF).
Proof.
  intros Hs Hsize Hlen Hm. revert f Hs Hsize.
  induction fuel as [|fuel IH]; intros f Hs Hsize Hcur Hfuel; [lia|].
  set (b := repeat x00 m).
  assert (Hb : b <> []).
  { unfold b. destruct m; [lia | discriminate]. }
  cbn [read_to_end]. fold b.
  destruct (Z.eq_dec (openFile.offset f) (len data)) as [Hend|Hmore].
  - unfold openFile.Read.
    rewrite (len_eqb_nonempty b Hb), Hsize.
    rewrite (geb_true_le (openFile.offset f) (len data) ltac:(lia)).
    unfold value, ret. cbn [fst firstn Z.to_nat].
    rewrite Hend. unfold len at 1. rewrite Nat2Z.id, skipn_all.
    rewrite <- Hend. now rewrite openFile_set_offset_same.
  - set (tail := skipn (Z.to_nat (openFile.offset f)) data).
    assert (Htail : (0 < List.length tail)%nat).
    { unfold tail. rewrite length_skipn. unfold len in *. lia. }
    destruct (serves_Reader_Read _ _ data b (openFile.offset f) Hs
                ltac:(lia) Hb) as (r & Hr & Hclose & Hread).
    fold tail in Hread.
    assert (Hbm : List.length b = m) by (unfold b; apply repeat_length).
    rewrite Hbm in Hread.
    set (c := Nat.min m (List.length tail)).
    assert (Hchunk : firstn m tail = firstn c tail)
      by apply firstn_min_length.
    rewrite Hchunk in Hread.
    assert (Hc_len : List.length (firstn c tail) = c).
    { rewrite length_firstn. unfold c. lia. }
    assert (Hc : (0 < c <= List.length tail)%nat) by (unfold c; lia).
    rewrite (Read_with_reader f b r Hb ltac:(lia) Hr), Hread, Hclose.
    assert (Hn : len (firstn c tail) = Z.of_nat c)
      by (unfold len; now rewrite Hc_len).
    assert (Hgot : firstn c (firstn c tail
                             ++ skipn (List.length (firstn c tail)) b)
                   = firstn c tail).
    { pose proof (firstn_length_app (firstn c tail)
                    (skipn (List.length (firstn c tail)) b)) as H.
      rewrite Hc_len in H at 1. exact H. }
    rewrite Hn, Nat2Z.id, Hgot. unfold add64.
    assert (Htl : Z.of_nat (List.length tail) =
                  len data - openFile.offset f).
    { unfold tail. rewrite length_skipn. unfold len in *. lia. }
    rewrite wrap64_id by (unfold int64_ok; lia).
    set (f1 := openFile.set_offset f (openFile.offset f + Z.of_nat c)).
    rewrite (IH f1).
    + unfold f1. cbn [openFile.set_offset openFile.offset openFile.self
                      openFile.bucket].
      replace (Z.to_nat (openFile.offset f + Z.of_nat c))
        with (c + Z.to_nat (openFile.offset f))%nat by lia.
      rewrite <- skipn_skipn. fold tail. now rewrite firstn_skipn.
    + exact Hs.
    + exact Hsize.
    + unfold f1. cbn [openFile.set_offset openFile.offset]. lia.
    + unfold f1. cbn [openFile.set_offset openFile.offset]. lia.
Qed.

(** X16. Sequential reads give the whole object: on a file handle over an
    object that the store holds, with the cursor anywhere in the object,
    calling [Read] with fresh buffers of a fixed non-zero length until it
    reports an error returns, chunk after chunk, exactly the bytes from the
    cursor to the end; the loop ends with [io.EOF], after at most one call
    more than there are bytes left, with the cursor at the end. *)
Theorem read_to_end_whole_object (f : openFile.t) (data : list byte)
  (m : nat) :
  serves (openFile.bucket f) (fileListEntry.Path (openFile.self f)) data ->
  fileListEntry.Size (openFile.self f) = len data ->
  len data < 2 ^ 63 -> (0 < m)%nat ->
  0 <= openFile.offset f <= len data ->
  read_to_end (S (Z.to_nat (len data - openFile.offset f))) f m =
    (skipn (Z.to_nat (openFile.offset f)) data,
     openFile.set_offset f (len data), Some io_EOF).
Proof.
  intros Hs Hsize Hlen Hm Hcur.
  apply read_to_end_enough; try assumption. lia.
Qed.

Lemma read_to_end_whole_object_witness :
  read_to_end 6 foo_file 2 =
    (foo_bytes, openFile.set_offset foo_file 5, Some io_EOF).
Proof.
  apply (read_to_end_whole_object foo_file foo_bytes 2).
  - exact demo_serves_foo.
  - reflexivity.
  - evaluate.
  - apply Nat.lt_0_succ.
  - evaluate.
Defined.

(** ** Names and modes of entries *)

Lemma no_slash_app (s t : string) :
  no_slash (s ++ t) = no_slash s && no_slash t.
Proof.
  induction s as [|c s IH]; [reflexivity|]. simpl. rewrite IH.
  now rewrite andb_assoc.
Qed.

Lemma Split_from_no_slash (s cur : string) :
  no_slash cur = true ->
  Forall (fun seg => no_slash seg = true) (Split_from cur s).
Proof.
  revert cur. induction s as [|c r IH]; intros cur Hcur; simpl.
  - now constructor.
  - destruct (Ascii.eqb c "/") eqn:Ec.
    + constructor; [exact Hcur | now apply IH].
    + apply IH. rewrite no_slash_app, Hcur. simpl. now rewrite Ec.
Qed.

Lemma Split_from_nonempty (s cur : string) : Split_from cur s <> [].
Proof.
  revert cur. induction s as [|c r IH]; intros cur; simpl;
    [discriminate|].
  destruct (Ascii.eqb c "/"); [discriminate | apply IH].
Qed.

Lemma Forall_last {A : Type} (P : A -> Prop) (l : list A) (d : A) :
  Forall P l -> l <> [] -> P (last l d).
Proof.
  induction l as [|a l IH]; intros Hall Hne; [contradiction|].
  inversion Hall; subst. destruct l as [|a' l']; [assumption|].
  apply IH; [assumption | discriminate].
Qed.

(** X17. [Name] never contains a path separator, whatever the key of the
    entry. *)
Theorem Name_has_no_slash (e : fileListEntry.t) :
  no_slash (fileListEntry.Name e) = true.
Proof.
  unfold fileListEntry.Name.
  destruct (String.eqb (Key (fileListEntry.obj e)) ""); [reflexivity|].
  apply (Forall_last (fun seg => no_slash seg = true)).
  - now apply Split_from_no_slash.
  - apply Split_from_nonempty.
Qed.

(** The elements that [fs.ValidPath] checks are the segments that
    [strings.Split] cuts. *)
Lemma valid_elems_Split (s cur : string) :
  valid_elems cur s = forallb elem_ok (Split_from cur s).
Proof.
  revert cur. induction s as [|c r IH]; intros cur; simpl.
  - now rewrite andb_true_r.
  - destruct (Ascii.eqb c "/"); simpl; now rewrite IH.
Qed.

Lemma last_byte_cons (c : ascii) (r : string) :
  fileListEntry.last_byte (String c r) =
    match r with
    | EmptyString => Some c
    | String _ _ => fileListEntry.last_byte r
    end.
Proof.
  unfold fileListEntry.last_byte. destruct r as [|c' r']; [reflexivity|].
  cbn [String.length Nat.sub]. now rewrite Nat.sub_0_r.
Qed.

Lemma HasSuffix_slash_last_byte (s : string) :
  HasSuffix s "/" =
    match fileListEntry.last_byte s with
    | Some c => Ascii.eqb c "/"
    | None => false
    end.
Proof.
  induction s as [|c r IH]; [reflexivity|].
  rewrite HasSuffix_slash_cons, last_byte_cons.
  destruct r; [reflexivity | exact IH].
Qed.

(** [Name] of an entry whose key has no trailing separator. *)
Lemma Name_of_plain_key (o : ListObject) :
  Key o <> "" -> HasSuffix (Key o) "/" = false ->
  fileListEntry.Name (fileListEntry.mk o) = last (Split_slash (Key o)) "".
Proof.
  intros Hne Hsuf. unfold fileListEntry.Name. cbn [fileListEntry.obj].
  destruct (String.eqb_spec (Key o) "") as [E|_]; [contradiction|].
  rewrite HasSuffix_slash_last_byte in Hsuf.
  destruct (fileListEntry.last_byte (Key o)) as [c|]; [|reflexivity].
  now rewrite Hsuf.
Qed.

Lemma ValidPath_last_element (name : string) :
  ValidPath name = true -> name <> "." ->
  name <> "" /\ elem_ok (last (Split_slash name) "") = true.
Proof.
  intros Hv Hroot. split; [intros ->; discriminate Hv|].
  unfold ValidPath in Hv. destruct (utf8_ValidString name); [|discriminate].
  cbn [negb] in Hv.
  destruct (String.eqb_spec name ".") as [E|_]; [contradiction|].
  rewrite valid_elems_Split in Hv.
  apply (Forall_last (fun seg => elem_ok seg = true)).
  - apply Forall_forall. now apply forallb_forall.
  - apply Split_from_nonempty.
Qed.

(** X18. The [Name] of the entry that resolution returns is the last
    element of the path that was asked for, for files, directories and the
    root alike; for a path other than the root it is a valid path element:
    not empty, not [.] and not [..]. *)
Theorem lookup_Name_is_last_element (fsys : FS.t) (name : string)
  (e : fileListEntry.t) :
  value (FS.lookup fsys name) = Ok e ->
  fileListEntry.Name e = last (Split_slash name) ""
  /\ (name <> "." -> elem_ok (fileListEntry.Name e) = true).
Proof.
  intros H.
  destruct (ValidPath name) eqn:Hv.
  2:{ unfold FS.lookup in H. rewrite Hv in H. discriminate H. }
  destruct (String.eqb_spec name ".") as [Hroot|Hroot].
  - subst name. cbv in H. inversion H. split; [reflexivity|].
    intros Hne. now contradiction Hne.
  - destruct (ValidPath_last_element name Hv Hroot) as [Hne Hok].
    assert (Hname : fileListEntry.Name e = last (Split_slash name) "").
    { destruct (bk_Attributes (FS.bucket fsys) name) as [attr|err] eqn:Hattr.
      - rewrite (lookup_attributes_found fsys name attr Hv Hroot Hattr) in H.
        inversion H; subst e; clear H.
        apply (Name_of_plain_key
                 (mkListObject name (attr_ModTime attr) (attr_Size attr)
                    (attr_MD5 attr) false)); cbn [Key].
        + exact Hne.
        + now apply ValidPath_no_trailing_slash.
      - rewrite (lookup_attributes_failed fsys name err Hv Hroot Hattr) in H.
        unfold value, probe_result in H. cbn [fst] in H.
        destruct (pending _) as [|o rest].
        { destruct (is_EOF _); discriminate H. }
        destruct (String.eqb_spec (Key o) (name ++ "/")) as [Hkey|_];
          [|discriminate H].
        inversion H; subst e; clear H.
        now apply Name_of_directory_key. }
    split; [exact Hname|]. intros _. now rewrite Hname.
Qed.

Lemma lookup_Name_is_last_element_witness :
  fileListEntry.Name
    (fileListEntry.mk (mkListObject "dir1/hoge.txt" 3 4 [] false)) =
    last (Split_slash "dir1/hoge.txt") ""
  /\ ("dir1/hoge.txt" <> "." ->
      elem_ok (fileListEntry.Name
                 (fileListEntry.mk
                    (mkListObject "dir1/hoge.txt" 3 4 [] false))) = true).
Proof.
  apply (lookup_Name_is_last_element demo_fs "dir1/hoge.txt"). reflexivity.
Defined.

(** X19. The mode of an entry agrees with its directory flag and is
    read-only: [Mode().IsDir()] is [IsDir()], [Mode().IsRegular()] is its
    negation, [Type()] is [fs.ModeDir] for a directory and 0 for a file,
    the permission bits are [0555] for a directory and [0444] for a file,
    and no write bit is ever set. *)
Theorem Mode_agrees_with_IsDir (e : fileListEntry.t) :
  FileMode.IsDir (fileListEntry.Mode e) = fileListEntry.IsDir e
  /\ FileMode.IsRegular (fileListEntry.Mode e) = negb (fileListEntry.IsDir e)
  /\ fileListEntry.Type' e =
       (if fileListEntry.IsDir e then FileMode.ModeDir else 0)
  /\ FileMode.Perm (fileListEntry.Mode e) =
       (if fileListEntry.IsDir e then 5 * 8 ^ 2 + 5 * 8 + 5
        else 4 * 8 ^ 2 + 4 * 8 + 4)
  /\ Z.land (fileListEntry.Mode e) (2 * 8 ^ 2 + 2 * 8 + 2) = 0.
Proof.
  unfold fileListEntry.Type', fileListEntry.Mode.
  destruct (fileListEntry.IsDir e); vm_compute; repeat split.
Qed.

(** X20. A name with a trailing separator is refused: for any p, the name
    p followed by [/] is not a valid path, and [Open] fails on it with
    [fs.ErrInvalid] without calling the store. *)
Theorem trailing_slash_is_refused (fsys : FS.t) (p : string) :
  ValidPath (p ++ "/") = false
  /\ FS.Open fsys (p ++ "/") =
       (Err (fs_PathError opOpen (p ++ "/") fs_ErrInvalid), []).
Proof.
  assert (Hv : ValidPath (p ++ "/") = false).
  { destruct (ValidPath (p ++ "/")) eqn:E; [|reflexivity].
    apply ValidPath_no_trailing_slash in E.
    now rewrite HasSuffix_app_slash in E. }
  split; [exact Hv|].
  rewrite Open_after_lookup. unfold FS.lookup. now rewrite Hv.
Qed.

(** X21. [ReadFile] on a name that resolves to a directory never returns
    bytes and never asks for a reader: it fails with "is a directory" when
    the children could be listed, and with the wrapped listing error when
    they could not. *)
Theorem ReadFile_of_directory (fsys : FS.t) (name : string)
  (e : fileListEntry.t) :
  let it := bk_List (FS.bucket fsys) "/" (fileListEntry.Path e) in
  value (FS.lookup fsys name) = Ok e ->
  fileListEntry.IsDir e = true ->
  FS.ReadFile fsys name =
    (Done (None,
           Some (if is_EOF (final it)
                 then fs_PathError opRead name (errors_New "is a directory")
                 else fs_PathError opOpen name (final it))),
     calls (FS.lookup fsys name)
       ++ EvList "/" (fileListEntry.Path e)
            :: repeat EvNext (S (List.length (pending it)))).
Proof.
  intros it Hlook Hdir. rewrite ReadFile_after_Open, Open_after_lookup.
  unfold value, calls in *.
  destruct (FS.lookup fsys name) as [r l]. cbn [fst snd] in *. subst r.
  rewrite Hdir. fold it. now destruct (is_EOF (final it)).
Qed.

Lemma ReadFile_of_directory_witness :
  FS.ReadFile broken_fs "dir1" =
    (Done (None, Some (fs_PathError opOpen "dir1" err_network)),
     calls (FS.lookup broken_fs "dir1")
       ++ [EvList "/" "dir1/"; EvNext; EvNext]).
Proof.
  apply (ReadFile_of_directory broken_fs "dir1"
           (fileListEntry.mk (mkListObject "dir1/" 0 0 [] true)));
    reflexivity.
Defined.
